(** * UCCA: the transition oracle (parser/oracle.py) and the structural
      validator (ucca/validation.py), as a shallow embedding.

    Python objects are kept in a store and referred to by their ID; the sets
    the oracle mutates are lists read up to membership; every loop of the
    source is a recursive function, with fuel where the source has a [while]. *)

From Stdlib Require Import String List Bool Arith ZArith Lia Permutation.
Import ListNotations.
Local Open Scope string_scope.
Local Open Scope list_scope.
Local Open Scope nat_scope.

(** ** Graph model (ucca.core, read through the attributes the two modules use) *)

Definition NodeID := string.

(** An [Edge] object: [edge.parent.ID], [edge.child.ID], [edge.tag] and the
    truth value of [edge.attrib.get("remote")].  An edge object is identified
    with its contents. *)
Record Edge := mkEdge {
  edge_parent : NodeID;
  edge_child : NodeID;
  edge_tag : string;
  edge_remote : bool
}.

(** A [Node] object: [node.ID], [node.tag], the truth value of
    [node.attrib.get("implicit")], [node.incoming] and [node.outgoing]
    (iterating a node yields its outgoing edges). *)
Record Node := mkNode {
  ID : NodeID;
  node_tag : string;
  implicit : bool;
  incoming : list Edge;
  outgoing : list Edge
}.

(** A [Passage]: the nodes of layer 0 (terminals) and of layer 1 (structural
    nodes), each as [passage.layer(...).all] lists them. *)
Record Passage := mkPassage {
  layer0_all : list Node;
  layer1_all : list Node
}.

Definition Edge_eq_dec : forall a b : Edge, {a = b} + {a <> b}.
Proof. decide equality; try apply string_dec; apply bool_dec. Defined.

Definition Node_eq_dec : forall a b : Node, {a = b} + {a <> b}.
Proof.
  decide equality; try apply string_dec; try apply bool_dec;
    apply (list_eq_dec Edge_eq_dec).
Defined.

(** [passage.nodes.values()]: every node of every layer. *)
Definition nodes_values (p : Passage) : list Node :=
  layer0_all p ++ layer1_all p.

(** [passage.by_id(ID)]: the node of that ID, [None] where Python raises
    KeyError. *)
Definition by_id (p : Passage) (i : NodeID) : option Node :=
  find (fun n => String.eqb (ID n) i) (nodes_values p).

(** The node object an edge endpoint refers to.  In Python the edge holds the
    object itself, so the access cannot fail; for an ID the store does not
    hold (no passage built by ucca.core has one) the node is a bare one. *)
Definition endpoint (p : Passage) (i : NodeID) : Node :=
  match by_id p i with
  | Some n => n
  | None => mkNode i "" false [] []
  end.

(** ** Python containers *)

(** Sets of hashable objects are lists read up to membership: [set_inter] is
    [a.intersection(b)], [set_remove] is [a.remove(x)] for a present [x],
    [set_mem] is [x in a].  The length of [set_inter a b] is [len] of the
    Python set, as it holds no element twice. *)
Section PySet.
Context {A : Type} (eq_dec : forall a b : A, {a = b} + {a <> b}).

Definition set_mem (x : A) (s : list A) : bool :=
    if in_dec eq_dec x s then true else false.

Definition set_inter (a b : list A) : list A :=
    nodup eq_dec (filter (fun x => set_mem x b) a).

Definition set_remove (x : A) (s : list A) : list A :=
    remove eq_dec x s.

Definition set_add (x : A) (s : list A) : list A :=
    if set_mem x s then s else x :: s.

End PySet.

(** [l[i]] for a Python integer [i]: a negative index counts from the end,
    [None] where Python raises IndexError. *)
Definition getitem {A : Type} (l : list A) (i : Z) : option A :=
  let n := Z.of_nat (length l) in
  let j := if (i <? 0)%Z then (i + n)%Z else i in
  if ((0 <=? j) && (j <? n))%Z then nth_error l (Z.to_nat j) else None.

(** [any(x in ys for x in xs)]. *)
Definition any_in (xs ys : list NodeID) : bool :=
  existsb (fun x => set_mem string_dec x ys) xs.

(** ** Results of a call: a value or a raised exception. *)
Inductive exn := KeyError | IndexError.

Inductive result (A : Type) :=
| Returns (a : A)
| Raises (e : exn).
Arguments Returns {A} a.
Arguments Raises {A} e.

(** ** parser/oracle.py *)
Module oracle.

(** The [Action] values the oracle builds: [Action(type, tag, node_id)] by
    kind.  SWAP carries [swap_distance if self.compound_swap else None]. *)
Inductive Action :=
| SHIFT
| REDUCE
| WRAP
| FINISH
| ROOT (tag : string) (node_id : NodeID)
| NODE (tag : string) (node_id : NodeID)
| IMPLICIT (tag : string) (node_id : NodeID)
| RIGHT_EDGE (tag : string)
| RIGHT_REMOTE (tag : string)
| LEFT_EDGE (tag : string)
| LEFT_REMOTE (tag : string)
| SWAP (distance : option nat).

Definition ROOT_ID : NodeID := "1.1".

(** The parser state the caller passes: [state.stack] (top last) and
    [state.buffer] (front first), each element read through its [node_id]. *)
Record State := mkState {
  stack : list NodeID;
  buffer : list NodeID
}.

(** [frozenset((s, s2))] of two node objects, equal as sets. *)
Definition frozenset2 (a b : NodeID) : list NodeID := [a; b].

Definition frozenset_eqb (x y : list NodeID) : bool :=
  forallb (fun a => set_mem string_dec a y) x &&
  forallb (fun a => set_mem string_dec a x) y.

(** [pair in self.swapped] and [self.swapped.add(pair)]. *)
Definition in_swapped (pair : list NodeID) (sw : list (list NodeID)) : bool :=
  existsb (frozenset_eqb pair) sw.

Definition swapped_add (pair : list NodeID) (sw : list (list NodeID)) : list (list NodeID) :=
  if in_swapped pair sw then sw else pair :: sw.

(** The fields of an [Oracle] instance. *)
Record Oracle := mkOracle {
  nodes_left : list NodeID;
  edges_left : list Edge;
  swapped : list (list NodeID);
  passage : Passage;
  compound_swap : bool
}.

Definition with_edges_left (o : Oracle) (es : list Edge) : Oracle :=
  mkOracle (nodes_left o) es (swapped o) (passage o) (compound_swap o).

Definition with_nodes_left (o : Oracle) (ns : list NodeID) : Oracle :=
  mkOracle ns (edges_left o) (swapped o) (passage o) (compound_swap o).

Definition with_swapped (o : Oracle) (sw : list (list NodeID)) : Oracle :=
  mkOracle (nodes_left o) (edges_left o) sw (passage o) (compound_swap o).

(** [Oracle.__init__]. *)
Definition init (p : Passage) (compound : bool) : Oracle :=
  mkOracle
    (set_remove string_dec ROOT_ID (nodup string_dec (map ID (layer1_all p))))
    (nodup Edge_eq_dec (flat_map outgoing (nodes_values p)))
    []
    p
    compound.

(** *** check_swap_distance *)

(** The condition of the [if] in the loop, with Python's precedence:
    [A and not B or C and not D or E and not F]. *)
Definition swap_condition (children parents : list NodeID) (st : State) : bool :=
  any_in (buffer st) children && negb (any_in (stack st) children)
  || any_in (stack st) parents && negb (any_in (buffer st) parents)
  || any_in (buffer st) parents && negb (any_in (stack st) parents).

(** What one pass through the loop body does: leave the loop ([Break]) or go
    on with the pair recorded and the distance incremented. *)
Inductive iteration :=
| Break
| Continue (distance : nat) (sw : list (list NodeID)).

Definition children_of (o : Oracle) (s2 : Node) : list NodeID :=
  map edge_child (set_inter Edge_eq_dec (edges_left o) (outgoing s2)).

Definition parents_of (o : Oracle) (s2 : Node) : list NodeID :=
  map edge_parent (set_inter Edge_eq_dec (edges_left o) (incoming s2)).

Definition swap_body (o : Oracle) (s : Node) (st : State)
    (distance : nat) (sw : list (list NodeID)) : result iteration :=
  match getitem (stack st) (- Z.of_nat distance - 2)%Z with
  | None => Raises IndexError
  | Some id2 =>
    match by_id (passage o) id2 with
    | None => Raises KeyError
    | Some s2 =>
      let pair := frozenset2 (ID s) (ID s2) in
      if in_swapped pair sw then Returns Break
      else if swap_condition (children_of o s2) (parents_of o s2) st
           then Returns (Continue (distance + 1) (swapped_add pair sw))
           else Returns Break
    end
  end.

(** The guard of the [while]. *)
Definition swap_guard (o : Oracle) (st : State) (distance : nat) : bool :=
  (distance + 1 <? length (stack st)) && (compound_swap o || (distance <? 1)).

(** The [while] loop; [None] only when [fuel] runs out. *)
Fixpoint swap_loop (fuel : nat) (o : Oracle) (s : Node) (st : State)
    (distance : nat) (sw : list (list NodeID)) : option (result nat * list (list NodeID)) :=
  if swap_guard o st distance then
    match fuel with
    | O => None
    | S fuel' =>
      match swap_body o s st distance sw with
      | Raises e => Some (Raises e, sw)
      | Returns Break => Some (Returns distance, sw)
      | Returns (Continue distance' sw') => swap_loop fuel' o s st distance' sw'
      end
    end
  else Some (Returns distance, sw).

(** [check_swap_distance(s, state)]: the outcome and the oracle as the call
    leaves it. *)
Definition check_swap_distance (o : Oracle) (s : Node) (st : State)
    : option (result nat * Oracle) :=
  match swap_loop (length (stack st)) o s st 0 (swapped o) with
  | None => None
  | Some (r, sw) => Some (r, with_swapped o sw)
  end.

(** *** get_action *)
Section GetAction.

(** The order in which Python iterates over a set of edges: any order. *)
Variable set_order : list Edge -> list Edge.

(** [for edge in self.edges_left.intersection(b.incoming)], the NODE scan;
    [None] when the loop ends without a [return]. *)
Fixpoint scan_node (o : Oracle) (es : list Edge) : option (result Action * Oracle) :=
  match es with
  | [] => None
  | edge :: rest =>
    if set_mem string_dec (edge_parent edge) (nodes_left o) && negb (edge_remote edge) then
      let o1 := with_edges_left o (set_remove Edge_eq_dec edge (edges_left o)) in
      let o2 := with_nodes_left o1 (set_remove string_dec (edge_parent edge) (nodes_left o1)) in
      Some (Returns (NODE (edge_tag edge) (edge_parent edge)), o2)
    else scan_node o rest
  end.

(** [for edge in self.edges_left.intersection(s.outgoing)]. *)
Fixpoint scan_right (o : Oracle) (b : Node) (es : list Edge) : option (result Action * Oracle) :=
  match es with
  | [] => None
  | edge :: rest =>
    if String.eqb (edge_child edge) (ID b) then
      let o1 := with_edges_left o (set_remove Edge_eq_dec edge (edges_left o)) in
      Some (Returns (if edge_remote edge then RIGHT_REMOTE (edge_tag edge)
                     else RIGHT_EDGE (edge_tag edge)), o1)
    else if implicit (endpoint (passage o) (edge_child edge)) then
      let o1 := with_edges_left o (set_remove Edge_eq_dec edge (edges_left o)) in
      if set_mem string_dec (edge_child edge) (nodes_left o1) then
        let o2 := with_nodes_left o1 (set_remove string_dec (edge_child edge) (nodes_left o1)) in
        Some (Returns (IMPLICIT (edge_tag edge) (edge_child edge)), o2)
      else Some (Raises KeyError, o1)
    else scan_right o b rest
  end.

(** [for edge in self.edges_left.intersection(b.outgoing)]. *)
Fixpoint scan_left (o : Oracle) (s : Node) (es : list Edge) : option (result Action * Oracle) :=
  match es with
  | [] => None
  | edge :: rest =>
    if String.eqb (edge_child edge) (ID s) then
      let o1 := with_edges_left o (set_remove Edge_eq_dec edge (edges_left o)) in
      Some (Returns (if edge_remote edge then LEFT_REMOTE (edge_tag edge)
                     else LEFT_EDGE (edge_tag edge)), o1)
    else scan_left o s rest
  end.

(** The second [if state.stack:] block and the final [return SHIFT]; [top] is
    the node [s] when the stack is not empty. *)
Definition stack_block (o : Oracle) (st : State) (top : option Node) (b : Node)
    : option (result Action * Oracle) :=
  match top with
  | None => Some (Returns SHIFT, o)
  | Some s =>
    match scan_right o b (set_order (set_inter Edge_eq_dec (edges_left o) (outgoing s))) with
    | Some r => Some r
    | None =>
      match scan_left o s (set_order (set_inter Edge_eq_dec (edges_left o) (outgoing b))) with
      | Some r => Some r
      | None =>
        match check_swap_distance o s st with
        | None => None
        | Some (Raises e, o1) => Some (Raises e, o1)
        | Some (Returns swap_distance, o1) =>
          if negb (swap_distance =? 0) then
            Some (Returns (SWAP (if compound_swap o then Some swap_distance else None)), o1)
          else Some (Returns SHIFT, o1)
        end
      end
    end
  end.

(** From [if not state.buffer:] on. *)
Definition buffer_block (o : Oracle) (st : State) (top : option Node)
    : option (result Action * Oracle) :=
  match buffer st with
  | [] => Some (Returns WRAP, with_swapped o [])
  | b_id :: _ =>
    match by_id (passage o) b_id with
    | None => Some (Raises KeyError, o)
    | Some b =>
      match scan_node o (set_order (set_inter Edge_eq_dec (edges_left o) (incoming b))) with
      | Some r => Some r
      | None => stack_block o st top b
      end
    end
  end.

(** [get_action(state)]: the action returned (or the exception raised) and
    the oracle as the call leaves it; [None] only if the swap loop ran out of
    fuel. *)
Definition get_action (o : Oracle) (st : State) : option (result Action * Oracle) :=
  match edges_left o with
  | [] => Some (Returns FINISH, o)
  | _ :: _ =>
    match getitem (stack st) (-1)%Z with
    | None => buffer_block o st None
    | Some s_id =>
      match by_id (passage o) s_id with
      | None => Some (Raises KeyError, o)
      | Some s =>
        match set_inter Edge_eq_dec (edges_left o) (incoming s ++ outgoing s) with
        | [] => Some (Returns REDUCE, o)
        | [edge] =>
          if String.eqb (edge_parent edge) ROOT_ID then
            Some (Returns (ROOT (edge_tag edge) ROOT_ID),
                  with_edges_left o (set_remove Edge_eq_dec edge (edges_left o)))
          else buffer_block o st (Some s)
        | _ => buffer_block o st (Some s)
        end
      end
    end
  end.

End GetAction.
End oracle.

(** ** ucca/validation.py *)
Module validation.

(** The tag constants of ucca.layer0 and ucca.layer1 the validator compares
    with; the two modules are not part of the verified sources, so the table
    is a parameter. *)
Record Tags := mkTags {
  EdgeTags_LinkArgument : string;
  EdgeTags_LinkRelation : string;
  EdgeTags_Punctuation : string;
  NodeTags_Linkage : string;
  NodeTags_Punctuation : string;
  layer0_NodeTags_Punct : string
}.

(** What [validate] yields: the message by kind, with the values the format
    string is filled with. *)
Inductive Diagnostic :=
| Orphan_terminal (node : Node)
| Reentrant_terminal (node_incoming : list Edge) (node : Node)
| Extra_root (node_ID : NodeID)
| Detected_cycle (path_IDs : list NodeID)
| Multiple_incoming (incoming : list Edge)
| Edge_child_mismatch (edge : Edge) (child_tag : string)
| Node_child_mismatch (tag : string) (node_ID : NodeID) (child_tag : string) (child_ID : NodeID).

(** Modelled from the spec: [Layer.heads] belongs to ucca.core, which is not
    part of the verified sources; the spec calls the heads the top-level
    structural nodes, here the layer-1 nodes with no incoming edge. *)
Definition heads (p : Passage) : list Node :=
  filter (fun n => match incoming n with [] => true | _ :: _ => false end) (layer1_all p).

(** [node.children]: the child objects of the outgoing edges. *)
Definition children (p : Passage) (node : Node) : list Node :=
  map (fun e => endpoint p (edge_child e)) (outgoing node).

(** The local variables of the traversal; [stack] and [path] grow at the end,
    as [append] and [pop] do. *)
Record Traversal := mkTraversal {
  stack : list (list Node);
  visited : list Node;
  path : list Node;
  path_set : list Node
}.

(** What one pass through the body of [for node in stack[-1]] does: go on to
    the next node, or [break] after visiting a new node. *)
Inductive body_result :=
| Next (yielded : list Diagnostic)
| Broke (yielded : list Diagnostic) (t : Traversal).

Section Validate.
Variable tags : Tags.
Variable p : Passage.

(** The first loop, over the terminals. *)
Definition check_terminal (node : Node) : list Diagnostic :=
  match incoming node with
  | [] => [Orphan_terminal node]
  | [_] => []
  | _ :: _ :: _ => [Reentrant_terminal (incoming node) node]
  end.

(** The second loop, over the heads. *)
Definition check_head (node : Node) : list Diagnostic :=
  if negb (String.eqb (ID node) "1.1") && negb (String.eqb (node_tag node) (NodeTags_Linkage tags))
  then [Extra_root (ID node)] else [].

(** [e.tag not in LINKAGE] and the filter over [node.incoming]. *)
Definition primary (e : Edge) : bool :=
  negb (edge_remote e) &&
  negb (String.eqb (edge_tag e) (EdgeTags_LinkArgument tags)
        || String.eqb (edge_tag e) (EdgeTags_LinkRelation tags)).

(** The body of [for edge in node]. *)
Definition check_edge (node : Node) (edge : Edge) : list Diagnostic :=
  let child := endpoint p (edge_child edge) in
  (if xorb (String.eqb (edge_tag edge) (EdgeTags_Punctuation tags))
           (String.eqb (node_tag child) (NodeTags_Punctuation tags))
   then [Edge_child_mismatch edge (node_tag child)] else [])
  ++
  (if xorb (String.eqb (node_tag node) (NodeTags_Punctuation tags))
           (String.eqb (node_tag child) (layer0_NodeTags_Punct tags))
   then [Node_child_mismatch (node_tag node) (ID node) (node_tag child) (ID child)] else []).

(** What is yielded when a node is visited for the first time. *)
Definition check_node (node : Node) : list Diagnostic :=
  (let incoming := filter primary (incoming node) in
   if 1 <? length incoming then [Multiple_incoming incoming] else [])
  ++ flat_map (check_edge node) (outgoing node).

Definition for_body (t : Traversal) (node : Node) : body_result :=
  if set_mem Node_eq_dec node (path_set t) then
    Next [Detected_cycle (map ID (path t))]
  else if negb (set_mem Node_eq_dec node (visited t)) then
    Broke (check_node node)
          (mkTraversal (stack t ++ [children p node])
                       (set_add Node_eq_dec node (visited t))
                       (path t ++ [node])
                       (set_add Node_eq_dec node (path_set t)))
  else Next [].

(** The [else] of the [for]: [path_set.remove(path.pop())] when the path is
    not empty, then [stack.pop()]. *)
Definition for_else (t : Traversal) : Traversal :=
  mkTraversal (removelast (stack t))
              (visited t)
              (removelast (path t))
              (match path t with
               | [] => path_set t
               | n :: rest => set_remove Node_eq_dec (last (path t) n) (path_set t)
               end).

(** [for node in stack[-1]: ... else: ...] over the nodes still to scan. *)
Fixpoint for_loop (t : Traversal) (nodes : list Node) : list Diagnostic * Traversal :=
  match nodes with
  | [] => ([], for_else t)
  | node :: rest =>
    match for_body t node with
    | Next ds => let (ds', t') := for_loop t rest in (ds ++ ds', t')
    | Broke ds t' => (ds, t')
    end
  end.

(** One pass through the body of [while stack]. *)
Definition while_body (t : Traversal) : list Diagnostic * Traversal :=
  for_loop t (last (stack t) []).

(** [while stack: ...]; [None] only when [fuel] runs out. *)
Fixpoint while_loop (fuel : nat) (t : Traversal) : option (list Diagnostic) :=
  match stack t with
  | [] => Some []
  | _ :: _ =>
    match fuel with
    | O => None
    | S fuel' =>
      let (ds, t') := while_body t in
      match while_loop fuel' t' with
      | Some ds' => Some (ds ++ ds')
      | None => None
      end
    end
  end.

(** The traversal as it starts: [stack = [list(heads)]], the rest empty. *)
Definition start (hs : list Node) : Traversal := mkTraversal [hs] [] [] [].

(** [validate(passage)] with the heads given, as the sequence of everything
    the generator yields. *)
Definition validate_from (fuel : nat) (hs : list Node) : option (list Diagnostic) :=
  match while_loop fuel (start hs) with
  | Some ds => Some (flat_map check_terminal (layer0_all p) ++ flat_map check_head hs ++ ds)
  | None => None
  end.

(** The nodes the traversal can ever meet (the heads and the children of
    edges), and the fuel that is enough. *)
Definition candidates (hs : list Node) : list Node :=
  hs ++ map (fun e => endpoint p (edge_child e)) (flat_map outgoing (hs ++ nodes_values p)).

Definition enough_fuel (hs : list Node) : nat :=
  2 * length (candidates hs) + 2.

Definition validate : option (list Diagnostic) :=
  validate_from (enough_fuel (heads p)) (heads p).

(** The messages as strings, given [str(node)] and [str(edge)]. *)
Variable str_node : Node -> string.
Variable str_edge : Edge -> string.

Definition join (incoming : list Edge) : string :=
  String.concat ", " (map str_edge incoming).

Definition message (d : Diagnostic) : string :=
  match d with
  | Orphan_terminal node =>
      "Orphan terminal (" ++ ID node ++ ") '" ++ str_node node ++ "'"
  | Reentrant_terminal es node =>
      "Reentrant terminal (" ++ join es ++ ") '" ++ str_node node ++ "'"
  | Extra_root i => "Extra root (" ++ i ++ ")"
  | Detected_cycle ids => "Detected cycle (" ++ String.concat "->" ids ++ ")"
  | Multiple_incoming es => "Multiple incoming non-remote (" ++ join es ++ ")"
  | Edge_child_mismatch edge child_tag =>
      edge_tag edge ++ " edge (" ++ str_edge edge ++ ") with " ++ child_tag ++ " child"
  | Node_child_mismatch tag i child_tag child_i =>
      tag ++ " node (" ++ i ++ ") with " ++ child_tag ++ " child (" ++ child_i ++ ")"
  end.

End Validate.
End validation.


(** ** Concrete passages, oracles and states *)
Module example.
Import oracle.

(** The minimal passage: the root 1.1, one structural node 1.2 attached to
    it by an edge tagged A, and one terminal 0.1 under 1.2, by an edge of
    tag [t]. *)
Definition root_edge : Edge := mkEdge "1.1" "1.2" "A" false.

Definition terminal_edge (t : string) : Edge := mkEdge "1.2" "0.1" t false.

Definition minimal_passage (t : string) : Passage :=
  mkPassage
    [mkNode "0.1" "Word" false [terminal_edge t] []]
    [mkNode "1.1" "FN" false [] [root_edge];
     mkNode "1.2" "FN" false [root_edge] [terminal_edge t]].

(** Sets iterated in the order the list has. *)
Definition in_list_order (l : list Edge) : list Edge := l.

(** A unit 1.2 with a terminal child 0.1 and an implicit child 1.3. *)
Definition to_terminal : Edge := mkEdge "1.2" "0.1" "T" false.

Definition to_implicit : Edge := mkEdge "1.2" "1.3" "A" false.

Definition implicit_passage : Passage :=
  mkPassage
    [mkNode "0.1" "Word" false [to_terminal] []]
    [mkNode "1.1" "FN" false [] [mkEdge "1.1" "1.2" "H" false];
     mkNode "1.2" "FN" false [mkEdge "1.1" "1.2" "H" false] [to_implicit; to_terminal];
     mkNode "1.3" "FN" true [to_implicit] []].

(** The oracle once NODE has made 1.2 (over another edge) and the parser
    stands with 1.2 on the stack and 0.1 in front of the buffer. *)
Definition implicit_oracle : Oracle :=
  mkOracle ["1.3"] [to_implicit; to_terminal; mkEdge "1.1" "1.2" "H" false] []
           implicit_passage false.

Definition implicit_state : State := mkState ["1.2"] ["0.1"].

(** Two units on the stack, 1.2 below 1.3: 1.2 still lacks its child 0.1, in
    the buffer, and its parent 1.3, on the stack. *)
Definition lacks_child : Edge := mkEdge "1.2" "0.1" "T" false.

Definition lacks_parent : Edge := mkEdge "1.3" "1.2" "A" false.

Definition crossing_passage : Passage :=
  mkPassage
    [mkNode "0.1" "Word" false [lacks_child] [];
     mkNode "0.2" "Word" false [mkEdge "1.2" "0.2" "T" false] [];
     mkNode "0.3" "Word" false [mkEdge "1.3" "0.3" "T" false] []]
    [mkNode "1.1" "FN" false [] [mkEdge "1.1" "1.3" "H" false];
     mkNode "1.2" "FN" false [lacks_parent] [mkEdge "1.2" "0.2" "T" false; lacks_child];
     mkNode "1.3" "FN" false [mkEdge "1.1" "1.3" "H" false]
            [mkEdge "1.3" "0.3" "T" false; lacks_parent]].

Definition crossing_oracle (compound : bool) : Oracle :=
  mkOracle [] [lacks_child; lacks_parent; mkEdge "1.1" "1.3" "H" false] []
           crossing_passage compound.

Definition crossing_state : State := mkState ["1.2"; "1.3"] ["0.1"].

Definition crossing_top : Node :=
  mkNode "1.3" "FN" false [mkEdge "1.1" "1.3" "H" false]
         [mkEdge "1.3" "0.3" "T" false; lacks_parent].

Definition crossing_below : Node :=
  mkNode "1.2" "FN" false [lacks_parent] [mkEdge "1.2" "0.2" "T" false; lacks_child].

(** The tag constants as ucca.layer0 and ucca.layer1 define them. *)
Definition ucca_tags : validation.Tags :=
  validation.mkTags "LA" "LR" "U" "LKG" "PNCT" "Punctuation".

(** Three structural nodes in a cycle A -> B -> C -> A, beside the root 1.1
    that every layer 1 has; no terminals. *)
Definition cycle_passage : Passage :=
  mkPassage []
    [mkNode "1.1" "FN" false [] [];
     mkNode "A" "FN" false [mkEdge "C" "A" "P" false] [mkEdge "A" "B" "P" false];
     mkNode "B" "FN" false [mkEdge "A" "B" "P" false] [mkEdge "B" "C" "P" false];
     mkNode "C" "FN" false [mkEdge "B" "C" "P" false] [mkEdge "C" "A" "P" false]].

(** The same cycle with an edge from the root to A. *)
Definition rooted_cycle_passage : Passage :=
  mkPassage []
    [mkNode "1.1" "FN" false [] [mkEdge "1.1" "A" "H" false];
     mkNode "A" "FN" false [mkEdge "1.1" "A" "H" false; mkEdge "C" "A" "P" false]
            [mkEdge "A" "B" "P" false];
     mkNode "B" "FN" false [mkEdge "A" "B" "P" false] [mkEdge "B" "C" "P" false];
     mkNode "C" "FN" false [mkEdge "B" "C" "P" false] [mkEdge "C" "A" "P" false]].

(** Three terminals: 0.1 with no incoming edge, 0.2 with one, 0.3 with two. *)
Definition orphan : Node := mkNode "0.1" "Word" false [] [].

Definition attached : Node := mkNode "0.2" "Word" false [mkEdge "1.2" "0.2" "T" false] [].

Definition reentrant : Node :=
  mkNode "0.3" "Word" false [mkEdge "1.2" "0.3" "T" false; mkEdge "1.3" "0.3" "T" false] [].

Definition terminals_passage : Passage :=
  mkPassage [orphan; attached; reentrant]
    [mkNode "1.1" "FN" false []
            [mkEdge "1.1" "1.2" "H" false; mkEdge "1.1" "1.3" "H" false];
     mkNode "1.2" "FN" false [mkEdge "1.1" "1.2" "H" false]
            [mkEdge "1.2" "0.2" "T" false; mkEdge "1.2" "0.3" "T" false];
     mkNode "1.3" "FN" false [mkEdge "1.1" "1.3" "H" false]
            [mkEdge "1.3" "0.3" "T" false]].

(** The same unit with the scan meeting the edge to 0.1 first. *)
Definition terminal_first_oracle : Oracle :=
  mkOracle ["1.3"] [to_terminal; to_implicit; mkEdge "1.1" "1.2" "H" false] []
           implicit_passage false.

(** The traversal of the rooted cycle once 1.1, A, B and C are on the path
    and the children of C, that is A, are on top of the stack. *)
Definition at_cycle_end : validation.Traversal :=
  snd (validation.while_body ucca_tags rooted_cycle_passage
    (snd (validation.while_body ucca_tags rooted_cycle_passage
      (snd (validation.while_body ucca_tags rooted_cycle_passage
        (snd (validation.while_body ucca_tags rooted_cycle_passage
          (validation.start (validation.heads rooted_cycle_passage))))))))).

(** The oracle of the minimal passage as it starts, after ROOT and at the
    end. *)
Definition minimal_start : Oracle := init (minimal_passage "T") false.

Definition minimal_after_root : Oracle :=
  mkOracle ["1.2"] [terminal_edge "T"] [] (minimal_passage "T") false.

Definition minimal_done : Oracle := mkOracle [] [] [] (minimal_passage "T") false.

(** The oracle of the crossing once the swap of 1.3 and 1.2 is recorded. *)
Definition crossing_swapped (compound : bool) : Oracle :=
  with_swapped (crossing_oracle compound) [["1.3"; "1.2"]].

End example.

(** ** The vocabulary of the properties *)
Section OracleVocabulary.
Import oracle.

(** What every call leaves of the three sets: [edges_left] and [nodes_left]
    lose elements at most, [swapped] gains at most. *)
Definition narrows (o o' : Oracle) : Prop :=
  incl (edges_left o') (edges_left o) /\
  length (edges_left o') <= length (edges_left o) /\
  incl (nodes_left o') (nodes_left o) /\
  incl (swapped o) (swapped o').

(** The same for one call that ends with [r] and leaves [o'], with what
    WRAP does to [swapped]. *)
Definition set_monotone (o : Oracle) (st : State) (r : result Action) (o' : Oracle) : Prop :=
  incl (edges_left o') (edges_left o) /\
  length (edges_left o') <= length (edges_left o) /\
  incl (nodes_left o') (nodes_left o) /\
  (r = Returns WRAP -> buffer st = [] /\ swapped o' = []) /\
  (r <> Returns WRAP -> incl (swapped o) (swapped o')).

(** "[xs] contains an unresolved child of [s2]": the child of an outgoing
    edge of [s2] that is still in edges_left. *)
Definition has_unresolved_child (o : Oracle) (s2 : Node) (xs : list NodeID) : Prop :=
  exists e, In e (edges_left o) /\ In e (outgoing s2) /\ In (edge_child e) xs.

(** "[xs] contains an unresolved parent of [s2]". *)
Definition has_unresolved_parent (o : Oracle) (s2 : Node) (xs : list NodeID) : Prop :=
  exists e, In e (edges_left o) /\ In e (incoming s2) /\ In (edge_parent e) xs.

(** The three conditions of the rule. *)
Definition buffer_child_only (o : Oracle) (s2 : Node) (st : State) : Prop :=
  has_unresolved_child o s2 (buffer st) /\ ~ has_unresolved_child o s2 (stack st).

Definition stack_parent_only (o : Oracle) (s2 : Node) (st : State) : Prop :=
  has_unresolved_parent o s2 (stack st) /\ ~ has_unresolved_parent o s2 (buffer st).

Definition buffer_parent_only (o : Oracle) (s2 : Node) (st : State) : Prop :=
  has_unresolved_parent o s2 (buffer st) /\ ~ has_unresolved_parent o s2 (stack st).

Definition exactly_one (P Q R : Prop) : Prop :=
  (P /\ ~ Q /\ ~ R) \/ (~ P /\ Q /\ ~ R) \/ (~ P /\ ~ Q /\ R).

End OracleVocabulary.

Section ValidationVocabulary.
Import validation.

(** The diagnostics of the traversal: every kind but the two of the loop
    over the terminals and the one of the loop over the heads. *)
Definition of_traversal (d : Diagnostic) : bool :=
  match d with
  | Detected_cycle _ | Multiple_incoming _
  | Edge_child_mismatch _ _ | Node_child_mismatch _ _ _ _ => true
  | Orphan_terminal _ | Reentrant_terminal _ _ | Extra_root _ => false
  end.

Definition is_cycle (d : Diagnostic) : bool :=
  match d with Detected_cycle _ => true | _ => false end.

(** What a pass through the body of the [for] yields. *)
Definition yielded (r : body_result) : list Diagnostic :=
  match r with
  | Next ds => ds
  | Broke ds _ => ds
  end.

(** The diagnostics about the terminal [t]. *)
Definition about (t : Node) (d : Diagnostic) : bool :=
  match d with
  | Orphan_terminal n | Reentrant_terminal _ n => if Node_eq_dec n t then true else false
  | _ => false
  end.

(** A bound on the number of diagnostics, in the numbers of terminals, of
    structural nodes and of edges. *)
Definition diagnostics_bound (n0 n1 e : nat) : nat :=
  n0 + n1 + (2 * (n1 + 2 * e) + 1) * (1 + 3 * (n1 + 2 * e)).

Variable tags : Tags.
Variable p : Passage.
Variable hs : list Node.

(** The states the traversal goes through: the first one, and the one each
    pass through the body of the [while] leaves. *)
Inductive reachable : Traversal -> Prop :=
| reachable_start : reachable (start hs)
| reachable_step t : reachable t -> stack t <> [] -> reachable (snd (while_body tags p t)).

(** What holds of the local variables all along. *)
Definition invariant (t : Traversal) : Prop :=
  NoDup (visited t) /\
  NoDup (path t) /\
  (forall n, In n (path_set t) <-> In n (path t)) /\
  incl (path t) (visited t) /\
  incl (visited t) (candidates p hs) /\
  (forall frame, In frame (stack t) ->
     incl frame (candidates p hs) /\ length frame <= length (candidates p hs)).

(** The measure that every pass through the body of the [while] lowers. *)
Definition remaining (t : Traversal) : nat :=
  2 * (length (candidates p hs) - length (visited t)) + length (stack t).

End ValidationVocabulary.

(** ** More vocabulary: the calls of the oracle *)
Section OracleCalls.
Import oracle.

(** The stack top [s] and the buffer front [b] of a state, as get_action
    looks them up. *)
Definition top_is (o : Oracle) (st : State) (s : Node) : Prop :=
  exists below s_id, stack st = below ++ [s_id] /\ by_id (passage o) s_id = Some s.

Definition front_is (o : Oracle) (st : State) (b : Node) : Prop :=
  exists b_id rest, buffer st = b_id :: rest /\ by_id (passage o) b_id = Some b.

(** The oracle after [edge] is taken from edges_left, and after [i] is taken
    from nodes_left too. *)
Definition without_edge (o : Oracle) (edge : Edge) : Oracle :=
  with_edges_left o (set_remove Edge_eq_dec edge (edges_left o)).

Definition without_edge_and_node (o : Oracle) (edge : Edge) (i : NodeID) : Oracle :=
  with_nodes_left (without_edge o edge) (set_remove string_dec i (nodes_left o)).

(** The ways a call of get_action ends, one for each [return] and for each
    place where an exception leaves the method. *)
Inductive outcome (o : Oracle) (st : State) : result Action -> Oracle -> Prop :=
| out_finish :
    edges_left o = [] ->
    outcome o st (Returns FINISH) o
| out_top_unknown below s_id :
    edges_left o <> [] ->
    stack st = below ++ [s_id] -> by_id (passage o) s_id = None ->
    outcome o st (Raises KeyError) o
| out_reduce s :
    edges_left o <> [] -> top_is o st s ->
    (forall e, In e (edges_left o) -> ~ In e (incoming s ++ outgoing s)) ->
    outcome o st (Returns REDUCE) o
| out_root s e :
    top_is o st s ->
    In e (edges_left o) -> In e (incoming s ++ outgoing s) ->
    (forall e', In e' (edges_left o) -> In e' (incoming s ++ outgoing s) -> e' = e) ->
    edge_parent e = ROOT_ID ->
    outcome o st (Returns (ROOT (edge_tag e) ROOT_ID)) (without_edge o e)
| out_wrap :
    edges_left o <> [] -> buffer st = [] ->
    outcome o st (Returns WRAP) (with_swapped o [])
| out_front_unknown b_id rest :
    edges_left o <> [] ->
    buffer st = b_id :: rest -> by_id (passage o) b_id = None ->
    outcome o st (Raises KeyError) o
| out_node b e :
    front_is o st b ->
    In e (edges_left o) -> In e (incoming b) ->
    In (edge_parent e) (nodes_left o) -> edge_remote e = false ->
    outcome o st (Returns (NODE (edge_tag e) (edge_parent e)))
            (without_edge_and_node o e (edge_parent e))
| out_right s b e :
    top_is o st s -> front_is o st b ->
    In e (edges_left o) -> In e (outgoing s) -> edge_child e = ID b ->
    outcome o st (Returns (if edge_remote e then RIGHT_REMOTE (edge_tag e)
                           else RIGHT_EDGE (edge_tag e)))
            (without_edge o e)
| out_implicit s b e :
    top_is o st s -> front_is o st b ->
    In e (edges_left o) -> In e (outgoing s) -> edge_child e <> ID b ->
    implicit (endpoint (passage o) (edge_child e)) = true ->
    In (edge_child e) (nodes_left o) ->
    outcome o st (Returns (IMPLICIT (edge_tag e) (edge_child e)))
            (without_edge_and_node o e (edge_child e))
| out_implicit_unknown s b e :
    top_is o st s -> front_is o st b ->
    In e (edges_left o) -> In e (outgoing s) -> edge_child e <> ID b ->
    implicit (endpoint (passage o) (edge_child e)) = true ->
    ~ In (edge_child e) (nodes_left o) ->
    outcome o st (Raises KeyError) (without_edge o e)
| out_left s b e :
    top_is o st s -> front_is o st b ->
    In e (edges_left o) -> In e (outgoing b) -> edge_child e = ID s ->
    outcome o st (Returns (if edge_remote e then LEFT_REMOTE (edge_tag e)
                           else LEFT_EDGE (edge_tag e)))
            (without_edge o e)
| out_swap s b d o1 :
    top_is o st s -> front_is o st b ->
    check_swap_distance o s st = Some (Returns d, o1) -> d <> 0 ->
    outcome o st (Returns (SWAP (if compound_swap o then Some d else None))) o1
| out_swap_raises s b e o1 :
    top_is o st s -> front_is o st b ->
    check_swap_distance o s st = Some (Raises e, o1) ->
    outcome o st (Raises e) o1
| out_shift s b o1 :
    top_is o st s -> front_is o st b ->
    check_swap_distance o s st = Some (Returns 0, o1) ->
    outcome o st (Returns SHIFT) o1
| out_shift_empty_stack b :
    edges_left o <> [] -> stack st = [] -> front_is o st b ->
    outcome o st (Returns SHIFT) o.

(** The actions that attach an edge of the passage. *)
Definition attaches (a : Action) : bool :=
  match a with
  | ROOT _ _ | NODE _ _ | IMPLICIT _ _
  | RIGHT_EDGE _ | RIGHT_REMOTE _ | LEFT_EDGE _ | LEFT_REMOTE _ => true
  | SHIFT | REDUCE | WRAP | FINISH | SWAP _ => false
  end.

(** The actions that make the node [i]. *)
Definition makes (i : NodeID) (a : Action) : bool :=
  match a with
  | NODE _ j | IMPLICIT _ j => String.eqb i j
  | _ => false
  end.

(** What [__init__] establishes and every call keeps: the two sets hold no
    element twice, hold edges and nodes of the passage only, and the root
    is not among the nodes left to make. *)
Definition consistent (o : Oracle) : Prop :=
  NoDup (edges_left o) /\
  NoDup (nodes_left o) /\
  ~ In ROOT_ID (nodes_left o) /\
  incl (edges_left o) (flat_map outgoing (nodes_values (passage o))) /\
  incl (nodes_left o) (map ID (layer1_all (passage o))).

End OracleCalls.

Section OracleRuns.
Import oracle.
Variable set_order : list Edge -> list Edge.

(** A sequence of calls of get_action on one oracle, each with the state the
    caller passes, with what the calls returned, first call first. *)
Inductive calls : Oracle -> list (result Action) -> Oracle -> Prop :=
| calls_none o : calls o [] o
| calls_more o st r o1 rs o2 :
    get_action set_order o st = Some (r, o1) ->
    calls o1 rs o2 ->
    calls o (r :: rs) o2.

(** How many of the results are actions that attach an edge. *)
Definition count_attaching (rs : list (result Action)) : nat :=
  length (filter (fun r => match r with Returns a => attaches a | Raises _ => false end) rs).

End OracleRuns.

(** ** More vocabulary: the traversal of the validator *)
Section TraversalVocabulary.
Import validation.
Variable tags : Tags.
Variable p : Passage.
Variable hs : list Node.

(** The traversal after it has visited [node] for the first time. *)
Definition visit (t : Traversal) (node : Node) : Traversal :=
  mkTraversal (stack t ++ [children p node])
              (set_add Node_eq_dec node (visited t))
              (path t ++ [node])
              (set_add Node_eq_dec node (path_set t)).

(** The nodes under the heads: a head, or a child of a node under them. *)
Inductive descendant : Node -> Prop :=
| descendant_head n : In n hs -> descendant n
| descendant_child m n : descendant m -> In n (children p m) -> descendant n.

(** A list of nodes each of which is a child of the one before. *)
Fixpoint descends (nodes : list Node) : Prop :=
  match nodes with
  | [] => True
  | n :: rest =>
    match rest with [] => True | m :: _ => In m (children p n) end /\ descends rest
  end.

(** The passes through the body of the [while], from a state to the end of
    the loop, with what they yield. *)
Inductive steps : Traversal -> list Diagnostic -> Traversal -> Prop :=
| steps_done t : stack t = [] -> steps t [] t
| steps_more t ds t1 ds' t' :
    stack t <> [] -> while_body tags p t = (ds, t1) -> steps t1 ds' t' ->
    steps t (ds ++ ds') t'.

(** The stack holds the heads and, above them, the children of each node of
    the path; once the stack is empty every head is visited. *)
Definition shaped (t : Traversal) : Prop :=
  (stack t = [] /\ path t = [] /\ incl hs (visited t))
  \/ stack t = hs :: map (children p) (path t).

(** A visited node is on the path or has all its children visited; the
    visited nodes are under the heads; the path starts at a head and goes
    down by child edges. *)
Definition explored (t : Traversal) : Prop :=
  (forall n, In n (visited t) -> In n (path t) \/ incl (children p n) (visited t)) /\
  (forall n, In n (visited t) -> descendant n) /\
  match path t with [] => True | n :: _ => In n hs end /\
  descends (path t).

(** A set of nodes in which every node has a child in the set: it holds a
    cycle of child edges. *)
Definition cyclic (nodes : list Node) : Prop :=
  nodes <> [] /\ forall c, In c nodes -> exists c', In c' nodes /\ In c' (children p c).

(** No node of [nodes] is done with: those visited are still on the path. *)
Definition unfinished (nodes : list Node) (t : Traversal) : Prop :=
  forall c, In c nodes -> In c (visited t) -> In c (path t).

End TraversalVocabulary.

(** ** More of parser/oracle.py: the two printing methods *)
Module oracle_printing.
Import oracle.
Section Printing.

(** The orders in which Python iterates over the two sets, and [str(edge)]
    of ucca.core. *)
Variable node_order : list NodeID -> list NodeID.
Variable set_order : list Edge -> list Edge.
Variable str_edge : Edge -> string.

(** [Oracle.str(sep)]. *)
Definition str (o : Oracle) (sep : string) : string :=
  ("nodes left: [" ++ String.concat " " (node_order (nodes_left o)) ++ "]" ++ sep
   ++ "edges left: [" ++ String.concat " " (map str_edge (set_order (edges_left o)))
   ++ "]")%string.

(** [Oracle.__str__]: in its body [str] is the builtin, not the method, so
    it returns [str(" ")], the string it is given. *)
Definition __str__ (o : Oracle) : string := " ".

End Printing.
End oracle_printing.

(** [s] holds [part]: it is [part] with something before and after. *)
Definition holds (s part : string) : Prop :=
  exists before after, s = (before ++ part ++ after)%string.
(** * Properties *)

(** ** The set operations *)
Section PySetFacts.
Context {A : Type} (eq_dec : forall a b : A, {a = b} + {a <> b}).

Lemma set_mem_true x s : set_mem eq_dec x s = true <-> In x s.
Proof. unfold set_mem; destruct (in_dec eq_dec x s); split; intros; congruence || tauto. Qed.

Lemma set_mem_false x s : set_mem eq_dec x s = false <-> ~ In x s.
Proof. unfold set_mem; destruct (in_dec eq_dec x s); split; intros; congruence || tauto. Qed.

Lemma in_set_inter x a b : In x (set_inter eq_dec a b) <-> In x a /\ In x b.
Proof. unfold set_inter. rewrite nodup_In, filter_In, set_mem_true. tauto. Qed.

Lemma NoDup_set_inter a b : NoDup (set_inter eq_dec a b).
Proof. apply NoDup_nodup. Qed.

Lemma in_set_remove x y s : In x (set_remove eq_dec y s) <-> In x s /\ x <> y.
Proof.
  unfold set_remove. split; intros H.
  - apply in_remove in H. exact H.
  - apply in_in_remove; tauto.
Qed.

Lemma set_remove_incl y s : incl (set_remove eq_dec y s) s.
Proof. intros x H. apply in_set_remove in H. tauto. Qed.

Lemma set_remove_length y s : length (set_remove eq_dec y s) <= length s.
Proof. apply remove_length_le. Qed.

Lemma in_set_add x y s : In x (set_add eq_dec y s) <-> x = y \/ In x s.
Proof.
  unfold set_add. destruct (set_mem eq_dec y s) eqn:E; simpl.
  - apply set_mem_true in E. split; [tauto | intros [->|]; auto].
  - split; intros [H|H]; auto.
Qed.

Lemma set_add_incl x s : incl s (set_add eq_dec x s).
Proof. intros y H. apply in_set_add. auto. Qed.

End PySetFacts.

Lemma any_in_true xs ys : any_in xs ys = true <-> exists x, In x xs /\ In x ys.
Proof.
  unfold any_in. rewrite existsb_exists.
  split; intros [x [H1 H2]]; exists x; split; auto; now apply set_mem_true in H2 || apply set_mem_true.
Qed.

(** A negative index within the length of the list is a valid access. *)
Lemma getitem_negative {A : Type} (l : list A) (k : nat) :
  k + 2 <= length l -> exists x, getitem l (- Z.of_nat k - 2)%Z = Some x.
Proof.
  intros H. unfold getitem.
  replace (- Z.of_nat k - 2 <? 0)%Z with true by (symmetry; apply Z.ltb_lt; lia).
  replace ((0 <=? - Z.of_nat k - 2 + Z.of_nat (length l))
           && (- Z.of_nat k - 2 + Z.of_nat (length l) <? Z.of_nat (length l)))%Z with true.
  - destruct (nth_error l (Z.to_nat (- Z.of_nat k - 2 + Z.of_nat (length l)))) eqn:E.
    + eauto.
    + apply nth_error_None in E. lia.
  - symmetry. apply andb_true_iff. split; [apply Z.leb_le | apply Z.ltb_lt]; lia.
Qed.

Lemma getitem_last {A : Type} (l : list A) (x : A) : getitem (l ++ [x]) (-1)%Z = Some x.
Proof.
  unfold getitem. rewrite length_app. simpl length.
  replace (-1 <? 0)%Z with true by reflexivity.
  replace ((0 <=? -1 + Z.of_nat (length l + 1)) && (-1 + Z.of_nat (length l + 1) <? Z.of_nat (length l + 1)))%Z
    with true by (symmetry; apply andb_true_iff; split; [apply Z.leb_le | apply Z.ltb_lt]; lia).
  replace (Z.to_nat (-1 + Z.of_nat (length l + 1))) with (length l) by lia.
  rewrite nth_error_app2 by lia. now rewrite Nat.sub_diag.
Qed.

Lemma getitem_nil {A : Type} (i : Z) : getitem (@nil A) i = None.
Proof.
  unfold getitem. simpl.
  destruct ((0 <=? (if (i <? 0)%Z then (i + 0)%Z else i)) && ((if (i <? 0)%Z then (i + 0)%Z else i) <? 0))%Z eqn:E; auto.
  apply andb_true_iff in E. destruct E as [E1 E2].
  apply Z.leb_le in E1. apply Z.ltb_lt in E2. lia.
Qed.

(** ** The oracle *)
Section SwapFacts.
Import oracle.

Lemma swapped_add_incl pair sw : incl sw (swapped_add pair sw).
Proof. unfold swapped_add. destruct (in_swapped pair sw); intros x H; simpl; auto. Qed.

Lemma swap_guard_true o st distance :
  swap_guard o st distance = true ->
  distance + 2 <= length (stack st) /\ (compound_swap o = true \/ distance = 0).
Proof.
  unfold swap_guard. intros H. apply andb_true_iff in H. destruct H as [H1 H2].
  apply Nat.ltb_lt in H1. apply orb_true_iff in H2. split; [lia|].
  destruct H2 as [H2|H2]; [now left | right]. apply Nat.ltb_lt in H2. lia.
Qed.

(** The body never reads the stack out of range while the guard holds. *)
Lemma swap_body_in_range o s st distance sw :
  swap_guard o st distance = true ->
  swap_body o s st distance sw <> Raises IndexError.
Proof.
  intros G. apply swap_guard_true in G. destruct G as [G _].
  destruct (getitem_negative (stack st) distance G) as [x Hx].
  unfold swap_body. rewrite Hx.
  destruct (by_id (passage o) x); [|discriminate].
  destruct (in_swapped _ sw); [discriminate|].
  destruct (swap_condition _ _ st); discriminate.
Qed.

Lemma swap_body_continue o s st distance sw d' sw' :
  swap_body o s st distance sw = Returns (Continue d' sw') ->
  d' = distance + 1 /\ incl sw sw'.
Proof.
  unfold swap_body. intros H.
  destruct (getitem (stack st) _); [|discriminate].
  destruct (by_id (passage o) n); [|discriminate].
  destruct (in_swapped _ sw); [discriminate|].
  destruct (swap_condition _ _ st); [|discriminate].
  inversion H; subst. split; [reflexivity | apply swapped_add_incl].
Qed.

(** The loop: with fuel for every stack element below [distance] it ends, never
    by an IndexError; the distance it returns stays within the stack, and
    within one step when compound swaps are off. *)
Lemma swap_loop_spec fuel : forall o s st distance sw,
  length (stack st) <= fuel + distance + 1 ->
  exists r sw',
    swap_loop fuel o s st distance sw = Some (r, sw') /\
    r <> Raises IndexError /\
    incl sw sw' /\
    forall d, r = Returns d ->
      distance <= d /\
      (d = distance \/ d + 1 <= length (stack st)) /\
      (compound_swap o = false -> d = distance \/ d = 1).
Proof.
  induction fuel as [|fuel IH]; intros o s st distance sw Hfuel.
  - simpl. destruct (swap_guard o st distance) eqn:G.
    + apply swap_guard_true in G. lia.
    + exists (Returns distance), sw. repeat split; try discriminate; try apply incl_refl;
        inversion H; subst; auto.
  - simpl. destruct (swap_guard o st distance) eqn:G.
    + pose proof (swap_body_in_range o s st distance sw G) as Hrange.
      pose proof (swap_guard_true _ _ _ G) as [Glen Gcomp].
      destruct (swap_body o s st distance sw) as [[|d' sw']|e] eqn:B.
      * exists (Returns distance), sw. repeat split; try discriminate; try apply incl_refl;
          inversion H; subst; auto.
      * apply swap_body_continue in B. destruct B as [-> Hincl].
        destruct (IH o s st (distance + 1) sw') as (r & sw'' & E & Hr & Hi & Hd); [lia|].
        exists r, sw''. split; [exact E|]. split; [exact Hr|].
        split; [eapply incl_tran; eauto|].
        intros d Hd'. destruct (Hd d Hd') as (H1 & H2 & H3).
        split; [lia|]. split; [right; lia|].
        intros Hc. destruct Gcomp as [Gc|Gd]; [congruence|].
        subst distance. destruct (H3 Hc) as [H4|H4]; right; lia.
      * exists (Raises e), sw. repeat split; try apply incl_refl; try discriminate.
        congruence.
    + exists (Returns distance), sw. repeat split; try discriminate; try apply incl_refl;
        inversion H; subst; auto.
Qed.

(** [check_swap_distance] only touches [swapped], and only adds to it. *)
Lemma check_swap_distance_spec o s st :
  exists r o',
    check_swap_distance o s st = Some (r, o') /\
    r <> Raises IndexError /\
    edges_left o' = edges_left o /\
    nodes_left o' = nodes_left o /\
    incl (swapped o) (swapped o') /\
    forall d, r = Returns d ->
      (d = 0 \/ d + 1 <= length (stack st)) /\
      (compound_swap o = false -> d = 0 \/ d = 1).
Proof.
  unfold check_swap_distance.
  destruct (swap_loop_spec (length (stack st)) o s st 0 (swapped o)) as (r & sw' & E & Hr & Hi & Hd);
    [lia|].
  rewrite E. exists r, (with_swapped o sw'). repeat split; auto; apply (Hd d H).
Qed.

End SwapFacts.

Section OracleFacts.
Import oracle.
Variable set_order : list Edge -> list Edge.

Lemma narrows_refl o : narrows o o.
Proof. repeat split; auto using incl_refl. Qed.

Lemma narrows_remove_edge o e :
  narrows o (with_edges_left o (set_remove Edge_eq_dec e (edges_left o))).
Proof.
  repeat split; simpl; auto using incl_refl, set_remove_incl, set_remove_length.
Qed.

Lemma narrows_remove_both o e i :
  narrows o (with_nodes_left
               (with_edges_left o (set_remove Edge_eq_dec e (edges_left o)))
               (set_remove string_dec i (nodes_left o))).
Proof.
  repeat split; simpl; auto using incl_refl, set_remove_incl, set_remove_length.
Qed.

Lemma narrows_trans o1 o2 o3 : narrows o1 o2 -> narrows o2 o3 -> narrows o1 o3.
Proof.
  intros (A1 & A2 & A3 & A4) (B1 & B2 & B3 & B4).
  repeat split; try lia; eapply incl_tran; eauto.
Qed.

Lemma scan_node_narrows o : forall es r o',
  scan_node o es = Some (r, o') -> narrows o o' /\ r <> Returns WRAP.
Proof.
  induction es as [|edge rest IH]; simpl; intros r o' H; [discriminate|].
  destruct (set_mem string_dec (edge_parent edge) (nodes_left o) && negb (edge_remote edge)).
  - inversion H; subst. split; [|discriminate].
    apply narrows_remove_both.
  - auto.
Qed.

Lemma scan_right_narrows o b : forall es r o',
  scan_right o b es = Some (r, o') -> narrows o o' /\ r <> Returns WRAP.
Proof.
  induction es as [|edge rest IH]; simpl; intros r o' H; [discriminate|].
  destruct (String.eqb (edge_child edge) (ID b)).
  - inversion H; subst. split; [apply narrows_remove_edge|].
    destruct (edge_remote edge); discriminate.
  - destruct (implicit (endpoint (passage o) (edge_child edge))); [|auto].
    simpl in H. destruct (set_mem string_dec (edge_child edge) (nodes_left o));
      inversion H; subst; (split; [|discriminate]).
    + apply narrows_remove_both.
    + apply narrows_remove_edge.
Qed.

Lemma scan_left_narrows o s : forall es r o',
  scan_left o s es = Some (r, o') -> narrows o o' /\ r <> Returns WRAP.
Proof.
  induction es as [|edge rest IH]; simpl; intros r o' H; [discriminate|].
  destruct (String.eqb (edge_child edge) (ID s)); [|auto].
  inversion H; subst. split; [apply narrows_remove_edge|].
  destruct (edge_remote edge); discriminate.
Qed.

Lemma stack_block_narrows o st top b :
  exists r o', stack_block set_order o st top b = Some (r, o') /\
               narrows o o' /\ r <> Returns WRAP.
Proof.
  unfold stack_block. destruct top as [s|].
  2: { exists (Returns SHIFT), o. split; [reflexivity|]. split; [apply narrows_refl | discriminate]. }
  destruct (scan_right o b _) as [[r o']|] eqn:R.
  { exists r, o'. split; [reflexivity|]. eapply scan_right_narrows; eauto. }
  destruct (scan_left o s _) as [[r o']|] eqn:L.
  { exists r, o'. split; [reflexivity|]. eapply scan_left_narrows; eauto. }
  destruct (check_swap_distance_spec o s st) as (r & o' & E & _ & He & Hn & Hs & _).
  rewrite E.
  assert (N : narrows o o').
  { unfold narrows. rewrite He, Hn. repeat split; auto using incl_refl. }
  destruct r as [d|e].
  - destruct (negb (d =? 0)); eexists; eexists; (split; [reflexivity|]);
      (split; [exact N | discriminate]).
  - eexists; eexists; split; [reflexivity|]. split; [exact N | discriminate].
Qed.

Lemma narrows_set_monotone o st r o' :
  narrows o o' -> r <> Returns WRAP -> set_monotone o st r o'.
Proof. intros (N1 & N2 & N3 & N4) Hr. repeat split; auto; congruence. Qed.

Lemma buffer_block_monotone o st top :
  exists r o', buffer_block set_order o st top = Some (r, o') /\ set_monotone o st r o'.
Proof.
  unfold buffer_block. destruct (buffer st) as [|b_id rest] eqn:B.
  { exists (Returns WRAP), (with_swapped o []). split; [reflexivity|].
    unfold set_monotone. simpl. repeat split; auto using incl_refl. congruence. }
  destruct (by_id (passage o) b_id) as [b|].
  2: { exists (Raises KeyError), o. split; [reflexivity|].
       apply narrows_set_monotone; [apply narrows_refl | discriminate]. }
  destruct (scan_node o _) as [[r o']|] eqn:N.
  { exists r, o'. split; [reflexivity|]. apply scan_node_narrows in N.
    now apply narrows_set_monotone. }
  destruct (stack_block_narrows o st top b) as (r & o' & E & N' & Hr).
  exists r, o'. split; [exact E|]. now apply narrows_set_monotone.
Qed.

Lemma get_action_monotone o st :
  exists r o', get_action set_order o st = Some (r, o') /\ set_monotone o st r o'.
Proof.
  unfold get_action. destruct (edges_left o) as [|e0 es] eqn:EL.
  { exists (Returns FINISH), o. split; [reflexivity|].
    apply narrows_set_monotone; [apply narrows_refl | discriminate]. }
  destruct (getitem (stack st) (-1)%Z) as [s_id|].
  2: { apply buffer_block_monotone. }
  destruct (by_id (passage o) s_id) as [s|].
  2: { exists (Raises KeyError), o. split; [reflexivity|].
       apply narrows_set_monotone; [apply narrows_refl | discriminate]. }
  destruct (set_inter Edge_eq_dec _ (incoming s ++ outgoing s)) as [|edge [|edge' more]].
  - exists (Returns REDUCE), o. split; [reflexivity|].
    apply narrows_set_monotone; [apply narrows_refl | discriminate].
  - destruct (String.eqb (edge_parent edge) ROOT_ID).
    + rewrite <- EL. eexists; eexists; split; [reflexivity|].
      apply narrows_set_monotone; [apply narrows_remove_edge | discriminate].
    + apply buffer_block_monotone.
  - apply buffer_block_monotone.
Qed.

(** C5: every call of get_action, with its call of check_swap_distance,
    returns (or raises) and leaves edges_left a subset of what it was, no
    larger, nodes_left a subset of what it was, and swapped a superset of
    what it was, unless WRAP is returned: then the buffer is empty and
    swapped is left empty.  check_swap_distance alone changes neither
    edges_left nor nodes_left and only adds to swapped. *)
Theorem get_action_set_monotonicity (o : Oracle) (st : State) :
  (exists r o', get_action set_order o st = Some (r, o') /\
    incl (edges_left o') (edges_left o) /\
    length (edges_left o') <= length (edges_left o) /\
    incl (nodes_left o') (nodes_left o) /\
    (r = Returns WRAP -> buffer st = [] /\ swapped o' = []) /\
    (r <> Returns WRAP -> incl (swapped o) (swapped o')))
  /\
  (forall s, exists r o', check_swap_distance o s st = Some (r, o') /\
    edges_left o' = edges_left o /\
    nodes_left o' = nodes_left o /\
    incl (swapped o) (swapped o')).
Proof.
  split.
  - destruct (get_action_monotone o st) as (r & o' & E & M).
    exists r, o'. split; [exact E | exact M].
  - intros s. destruct (check_swap_distance_spec o s st) as (r & o' & E & _ & He & Hn & Hs & _).
    exists r, o'. auto.
Qed.

(** C4 (as the code has it): once edges_left is empty, get_action returns
    FINISH again, in every state, raises nothing and leaves the oracle as it
    was. *)
Theorem get_action_finish_again (o : Oracle) (st : State) :
  edges_left o = [] -> get_action set_order o st = Some (Returns FINISH, o).
Proof.
  intros H. unfold get_action. rewrite H. reflexivity.
Qed.

End OracleFacts.

Section OracleScans.
Import oracle example.
Variable set_order : list Edge -> list Edge.
Hypothesis set_order_permutation : forall l, Permutation (set_order l) l.

Lemma set_order_singleton (x : Edge) : set_order [x] = [x].
Proof.
  apply Permutation_length_1_inv, Permutation_sym, set_order_permutation.
Qed.

Lemma set_order_in (x : Edge) (l : list Edge) : In x (set_order l) <-> In x l.
Proof.
  split; apply Permutation_in;
    [apply set_order_permutation | apply Permutation_sym, set_order_permutation].
Qed.

Lemma set_mem_head {A : Type} (dec : forall a b : A, {a = b} + {a <> b}) x l :
  set_mem dec x (x :: l) = true.
Proof. apply set_mem_true. now left. Qed.

(** C1 (as the code has it): on the minimal passage, from stack=[root] and
    buffer=[terminal], the first call returns ROOT(A, 1.1), as the one
    remaining edge of the stack top has the root as its parent, and removes
    that edge; with the root still on top of the stack the next call returns
    REDUCE; with the stack empty and the terminal in front of the buffer the
    next returns NODE(t, 1.2), t the tag of the terminal's edge, and empties
    edges_left; every later call returns FINISH. *)
Theorem minimal_scenario (t : string) :
  let p := minimal_passage t in
  let o1 := mkOracle ["1.2"] [terminal_edge t] [] p false in
  let o2 := mkOracle [] [] [] p false in
  get_action set_order (init p false) (mkState ["1.1"] ["0.1"])
    = Some (Returns (ROOT "A" "1.1"), o1) /\
  (forall below buf,
     get_action set_order o1 (mkState (below ++ ["1.1"]) buf) = Some (Returns REDUCE, o1)) /\
  (forall rest,
     get_action set_order o1 (mkState [] ("0.1" :: rest)) = Some (Returns (NODE t "1.2"), o2)) /\
  (forall st, get_action set_order o2 st = Some (Returns FINISH, o2)).
Proof.
  intros p o1 o2. subst o1 o2. split; [|split; [|split]].
  - reflexivity.
  - intros below buf. unfold get_action. cbn [edges_left stack].
    rewrite getitem_last. reflexivity.
  - intros rest. unfold get_action, buffer_block. cbn [edges_left stack buffer passage].
    change (getitem (@nil NodeID) (-1)%Z) with (@None NodeID).
    change (by_id p "0.1") with (Some (mkNode "0.1" "Word" false [terminal_edge t] [])).
    cbn [incoming]. unfold set_inter. cbn [filter]. rewrite set_mem_head.
    change (nodup Edge_eq_dec [terminal_edge t]) with [terminal_edge t].
    rewrite set_order_singleton.
    cbn [scan_node edge_parent edge_remote edge_tag terminal_edge nodes_left].
    change (set_mem string_dec "1.2" ["1.2"] && negb false) with true. cbv iota.
    unfold with_nodes_left, with_edges_left, set_remove.
    cbn [nodes_left edges_left swapped passage compound_swap].
    rewrite !remove_cons. reflexivity.
  - intros st. reflexivity.
Qed.

(** Edges that neither lead to [b] nor to an implicit child are passed over. *)
Lemma scan_right_skip o b pre l :
  (forall x, In x pre ->
     edge_child x <> ID b /\ implicit (endpoint (passage o) (edge_child x)) = false) ->
  scan_right o b (pre ++ l) = scan_right o b l.
Proof.
  induction pre as [|x pre IH]; intros H; [reflexivity|].
  simpl. destruct (H x (or_introl eq_refl)) as [Hc Hi].
  apply String.eqb_neq in Hc. rewrite Hc, Hi.
  apply IH. intros y Hy. apply H. now right.
Qed.

(** IMPLICIT comes from the first edge of the scan that leads to [b] or to an
    implicit child, when that edge does not lead to [b]. *)
Lemma scan_right_implicit o b : forall es tag child o',
  scan_right o b es = Some (Returns (IMPLICIT tag child), o') ->
  exists pre e post,
    es = pre ++ e :: post /\ edge_tag e = tag /\ edge_child e = child /\
    edge_child e <> ID b /\
    implicit (endpoint (passage o) (edge_child e)) = true /\
    forall x, In x pre -> edge_child x <> ID b.
Proof.
  induction es as [|edge rest IH]; simpl; intros tag child o' H; [discriminate|].
  destruct (String.eqb (edge_child edge) (ID b)) eqn:Eb.
  { destruct (edge_remote edge); discriminate. }
  apply String.eqb_neq in Eb.
  destruct (implicit (endpoint (passage o) (edge_child edge))) eqn:Ei.
  - destruct (set_mem string_dec (edge_child edge) _); [|discriminate].
    inversion H; subst. exists [], edge, rest. repeat split; auto; intros x [].
  - destruct (IH _ _ _ H) as (pre & e & post & -> & Ht & Hc & Hn & Hi & Hpre).
    exists (edge :: pre), e, post. repeat split; auto.
    intros x [<-|Hx]; auto.
Qed.

Lemma scan_left_kind o s : forall es r o',
  scan_left o s es = Some (r, o') ->
  exists e, r = Returns (LEFT_EDGE (edge_tag e)) \/ r = Returns (LEFT_REMOTE (edge_tag e)).
Proof.
  induction es as [|edge rest IH]; simpl; intros r o' H; [discriminate|].
  destruct (String.eqb (edge_child edge) (ID s)); [|eauto].
  inversion H; subst. exists edge. destruct (edge_remote edge); auto.
Qed.

(** When the first four steps of the procedure do not fire, the call comes
    down to the scans over the stack top [s] and the buffer front [b]. *)
Lemma get_action_past_node o st s b s_id b_id below rest :
  edges_left o <> [] ->
  stack st = below ++ [s_id] ->
  by_id (passage o) s_id = Some s ->
  match set_inter Edge_eq_dec (edges_left o) (incoming s ++ outgoing s) with
  | [] => False
  | [e] => String.eqb (edge_parent e) ROOT_ID = false
  | _ :: _ :: _ => True
  end ->
  buffer st = b_id :: rest ->
  by_id (passage o) b_id = Some b ->
  scan_node o (set_order (set_inter Edge_eq_dec (edges_left o) (incoming b))) = None ->
  get_action set_order o st = stack_block set_order o st (Some s) b.
Proof.
  intros Hne Hst Hs Hroot Hbuf Hb Hnode.
  assert (B : buffer_block set_order o st (Some s) = stack_block set_order o st (Some s) b).
  { unfold buffer_block. now rewrite Hbuf, Hb, Hnode. }
  unfold get_action. destruct (edges_left o) as [|e0 es] eqn:EL; [congruence|].
  rewrite Hst, getitem_last, Hs.
  destruct (set_inter Edge_eq_dec (e0 :: es) (incoming s ++ outgoing s)) as [|e [|e' more]].
  - contradiction.
  - now rewrite Hroot.
  - exact B.
Qed.

(** C2 (as the code has it): when steps 1-4 do not fire, get_action goes
    once through edges_left intersected with s.outgoing, in iteration order;
    an edge whose child is b, met before any edge with an implicit child, is
    removed and answered by RIGHT-REMOTE or RIGHT-EDGE with its tag; IMPLICIT
    is returned only for an edge with an implicit child other than b that no
    edge with child b precedes in that order. *)
Theorem right_edge_or_implicit (o : Oracle) (st : State) (s b : Node)
    (s_id b_id : NodeID) (below rest : list NodeID) :
  edges_left o <> [] ->
  stack st = below ++ [s_id] ->
  by_id (passage o) s_id = Some s ->
  match set_inter Edge_eq_dec (edges_left o) (incoming s ++ outgoing s) with
  | [] => False
  | [e] => String.eqb (edge_parent e) ROOT_ID = false
  | _ :: _ :: _ => True
  end ->
  buffer st = b_id :: rest ->
  by_id (passage o) b_id = Some b ->
  scan_node o (set_order (set_inter Edge_eq_dec (edges_left o) (incoming b))) = None ->
  (forall pre e post,
     set_order (set_inter Edge_eq_dec (edges_left o) (outgoing s)) = pre ++ e :: post ->
     edge_child e = ID b ->
     (forall x, In x pre ->
        edge_child x <> ID b /\ implicit (endpoint (passage o) (edge_child x)) = false) ->
     In e (edges_left o) /\ In e (outgoing s) /\
     get_action set_order o st =
       Some (Returns (if edge_remote e then RIGHT_REMOTE (edge_tag e)
                      else RIGHT_EDGE (edge_tag e)),
             with_edges_left o (set_remove Edge_eq_dec e (edges_left o))))
  /\
  (forall tag child o',
     get_action set_order o st = Some (Returns (IMPLICIT tag child), o') ->
     exists pre e post,
       set_order (set_inter Edge_eq_dec (edges_left o) (outgoing s)) = pre ++ e :: post /\
       edge_tag e = tag /\ edge_child e = child /\
       edge_child e <> ID b /\
       implicit (endpoint (passage o) (edge_child e)) = true /\
       forall x, In x pre -> edge_child x <> ID b).
Proof.
  intros Hne Hst Hs Hroot Hbuf Hb Hnode.
  rewrite (get_action_past_node o st s b s_id b_id below rest Hne Hst Hs Hroot Hbuf Hb Hnode).
  unfold stack_block. split.
  - intros pre e post Hscan Hchild Hpre.
    assert (Hin : In e (set_inter Edge_eq_dec (edges_left o) (outgoing s))).
    { apply set_order_in. rewrite Hscan. apply in_elt. }
    apply in_set_inter in Hin. destruct Hin as [H1 H2].
    split; [exact H1|]. split; [exact H2|].
    rewrite Hscan, (scan_right_skip o b pre (e :: post) Hpre). simpl.
    apply String.eqb_eq in Hchild. now rewrite Hchild.
  - intros tag child o' H.
    destruct (scan_right o b _) as [[r1 o1]|] eqn:R.
    { inversion H; subst. eapply scan_right_implicit; eauto. }
    destruct (scan_left o s _) as [[r2 o2]|] eqn:L.
    { inversion H; subst. apply scan_left_kind in L. destruct L as [e [L|L]]; discriminate. }
    destruct (check_swap_distance o s st) as [[[d|e] o3]|]; try discriminate.
    destruct (negb (d =? 0)); discriminate.
Qed.

End OracleScans.

(** *** The swap rule in the words of the specification *)
Section SwapRule.
Import oracle.

Lemma any_in_children o s2 xs :
  any_in xs (children_of o s2) = true <-> has_unresolved_child o s2 xs.
Proof.
  rewrite any_in_true. unfold children_of, has_unresolved_child. split.
  - intros (x & Hx & Hc). apply in_map_iff in Hc. destruct Hc as (e & <- & He).
    apply in_set_inter in He. exists e. tauto.
  - intros (e & H1 & H2 & H3). exists (edge_child e). split; [exact H3|].
    apply in_map. apply in_set_inter. tauto.
Qed.

Lemma any_in_parents o s2 xs :
  any_in xs (parents_of o s2) = true <-> has_unresolved_parent o s2 xs.
Proof.
  rewrite any_in_true. unfold parents_of, has_unresolved_parent. split.
  - intros (x & Hx & Hc). apply in_map_iff in Hc. destruct Hc as (e & <- & He).
    apply in_set_inter in He. exists e. tauto.
  - intros (e & H1 & H2 & H3). exists (edge_parent e). split; [exact H3|].
    apply in_map. apply in_set_inter. tauto.
Qed.

Lemma only_iff (a b : bool) (P Q : Prop) :
  (a = true <-> P) -> (b = true <-> Q) -> (a && negb b = true <-> P /\ ~ Q).
Proof.
  intros HP HQ. rewrite andb_true_iff, negb_true_iff, <- HP, <- HQ.
  destruct b; intuition congruence.
Qed.

(** The condition of the source is the disjunction of the three. *)
Lemma swap_condition_iff o s2 st :
  swap_condition (children_of o s2) (parents_of o s2) st = true <->
  buffer_child_only o s2 st \/ stack_parent_only o s2 st \/ buffer_parent_only o s2 st.
Proof.
  unfold swap_condition, buffer_child_only, stack_parent_only, buffer_parent_only.
  rewrite !orb_true_iff.
  rewrite (only_iff _ _ _ _ (any_in_children o s2 (buffer st)) (any_in_children o s2 (stack st))).
  rewrite (only_iff _ _ _ _ (any_in_parents o s2 (stack st)) (any_in_parents o s2 (buffer st))).
  rewrite (only_iff _ _ _ _ (any_in_parents o s2 (buffer st)) (any_in_parents o s2 (stack st))).
  tauto.
Qed.

(** C3 (as the code has it): in an iteration of the loop of
    check_swap_distance with deeper stack element s2 whose pair with s is not
    in swapped, the distance is incremented and the pair recorded if and
    only if at least one of the three conditions holds: the buffer holds an
    unresolved child of s2 and the stack does not; the stack holds an
    unresolved parent of s2 and the buffer does not; the buffer holds an
    unresolved parent of s2 and the stack does not.  Otherwise the loop ends
    with the distance reached. *)
Theorem swap_step_iff_some_condition (o : Oracle) (s s2 : Node) (st : State)
    (distance : nat) (sw : list (list NodeID)) (id2 : NodeID) :
  swap_guard o st distance = true ->
  getitem (stack st) (- Z.of_nat distance - 2)%Z = Some id2 ->
  by_id (passage o) id2 = Some s2 ->
  in_swapped (frozenset2 (ID s) (ID s2)) sw = false ->
  let some_condition :=
    buffer_child_only o s2 st \/ stack_parent_only o s2 st \/ buffer_parent_only o s2 st in
  let recorded := swapped_add (frozenset2 (ID s) (ID s2)) sw in
  (swap_body o s st distance sw = Returns (Continue (distance + 1) recorded)
     <-> some_condition) /\
  (swap_body o s st distance sw = Returns Break <-> ~ some_condition) /\
  (some_condition -> forall fuel,
     swap_loop (S fuel) o s st distance sw = swap_loop fuel o s st (distance + 1) recorded) /\
  (~ some_condition -> forall fuel,
     swap_loop (S fuel) o s st distance sw = Some (Returns distance, sw)).
Proof.
  intros G Hget Hs2 Hsw some_condition recorded.
  pose proof (swap_condition_iff o s2 st) as C. fold some_condition in C.
  assert (B : swap_body o s st distance sw =
              if swap_condition (children_of o s2) (parents_of o s2) st
              then Returns (Continue (distance + 1) recorded) else Returns Break).
  { unfold swap_body. now rewrite Hget, Hs2, Hsw. }
  destruct (swap_condition (children_of o s2) (parents_of o s2) st) eqn:E.
  - assert (H : some_condition) by now apply C.
    repeat split; auto; try tauto; try (rewrite B; discriminate).
    + intros _ fuel. simpl. now rewrite G, B.
  - assert (H : ~ some_condition) by (intros H; apply C in H; discriminate).
    repeat split; auto; try tauto; try (rewrite B; discriminate).
    + intros _ fuel. simpl. now rewrite G, B.
Qed.

(** C6: with compound_swap false, check_swap_distance ends, and the distance
    it returns is 0 or 1. *)
Theorem check_swap_distance_simple (o : Oracle) (s : Node) (st : State) :
  compound_swap o = false ->
  exists r o',
    check_swap_distance o s st = Some (r, o') /\
    forall d, r = Returns d -> d = 0 \/ d = 1.
Proof.
  intros Hc.
  destruct (check_swap_distance_spec o s st) as (r & o' & E & _ & _ & _ & _ & Hd).
  exists r, o'. split; [exact E|].
  intros d Hr. now apply (Hd d Hr).
Qed.

(** C10: with a stack that is not empty, check_swap_distance ends; whenever
    the guard of its loop holds, stack[-distance-2] is an element of the
    stack, so no IndexError is raised; and the distance returned is at most
    len(stack) - 1. *)
Theorem check_swap_distance_in_bounds (o : Oracle) (s : Node) (st : State) :
  stack st <> [] ->
  (forall distance, swap_guard o st distance = true ->
     exists id2, getitem (stack st) (- Z.of_nat distance - 2)%Z = Some id2) /\
  exists r o',
    check_swap_distance o s st = Some (r, o') /\
    r <> Raises IndexError /\
    forall d, r = Returns d -> d <= length (stack st) - 1.
Proof.
  intros Hne. split.
  - intros distance G. apply swap_guard_true in G.
    apply getitem_negative. lia.
  - destruct (check_swap_distance_spec o s st) as (r & o' & E & Hr & _ & _ & _ & Hd).
    exists r, o'. split; [exact E|]. split; [exact Hr|].
    intros d Hd'. destruct (Hd d Hd') as [[->|H] _]; lia.
Qed.

End SwapRule.

(** *** The oracle on concrete inputs *)
Section OracleExamples.
Import oracle example.

Lemma in_list_order_permutation : forall l, Permutation (in_list_order l) l.
Proof. intros l. apply Permutation_refl. Defined.

(** C1, as stated, fails: from stack=[root], buffer=[terminal] the first
    call returns ROOT(A, 1.1), not NODE(A, 1.2). *)
Lemma first_action_is_root :
  get_action in_list_order (init (minimal_passage "T") false) (mkState ["1.1"] ["0.1"])
    = Some (Returns (ROOT "A" "1.1"),
            mkOracle ["1.2"] [terminal_edge "T"] [] (minimal_passage "T") false)
  /\ ROOT "A" "1.1" <> NODE "A" "1.2".
Proof. split; [reflexivity | discriminate]. Qed.

Lemma minimal_scenario_witness :
  (forall l, Permutation (in_list_order l) l) /\
  forall rest,
    get_action in_list_order
      (mkOracle ["1.2"] [terminal_edge "T"] [] (minimal_passage "T") false)
      (mkState [] ("0.1" :: rest))
    = Some (Returns (NODE "T" "1.2"), mkOracle [] [] [] (minimal_passage "T") false).
Proof.
  split.
  - exact in_list_order_permutation.
  - exact (proj1 (proj2 (proj2 (minimal_scenario in_list_order in_list_order_permutation "T")))).
Defined.

(** C2, as stated, fails: 1.2 has a remaining edge to the buffer front 0.1,
    and the call returns IMPLICIT for the edge to the implicit child 1.3,
    which the scan meets first. *)
Lemma implicit_before_right_edge :
  In to_terminal (set_inter Edge_eq_dec (edges_left implicit_oracle)
                    (outgoing (endpoint implicit_passage "1.2")))
  /\ edge_child to_terminal = "0.1"
  /\ get_action in_list_order implicit_oracle implicit_state
     = Some (Returns (IMPLICIT "A" "1.3"),
             mkOracle [] [to_terminal; mkEdge "1.1" "1.2" "H" false] []
                      implicit_passage false).
Proof.
  split; [|split].
  - apply in_set_inter. split; simpl; auto.
  - reflexivity.
  - reflexivity.
Qed.

Lemma right_edge_or_implicit_witness :
  get_action in_list_order terminal_first_oracle implicit_state
  = Some (Returns (RIGHT_EDGE "T"),
          with_edges_left terminal_first_oracle
            (set_remove Edge_eq_dec to_terminal (edges_left terminal_first_oracle))).
Proof.
  refine (proj2 (proj2 (proj1
    (right_edge_or_implicit in_list_order in_list_order_permutation
       terminal_first_oracle implicit_state
       (mkNode "1.2" "FN" false [mkEdge "1.1" "1.2" "H" false] [to_implicit; to_terminal])
       (mkNode "0.1" "Word" false [to_terminal] [])
       "1.2" "0.1" [] [] _ _ _ _ _ _ _)
    [] to_terminal [to_implicit] _ _ _))).
  - discriminate.
  - reflexivity.
  - reflexivity.
  - exact I.
  - reflexivity.
  - reflexivity.
  - reflexivity.
  - reflexivity.
  - reflexivity.
  - intros x [].
Defined.

(** C3, as stated, fails: two of the three conditions hold at once, and the
    distance is incremented all the same; get_action answers SWAP. *)
Lemma swap_with_two_conditions :
  swap_body (crossing_oracle false) crossing_top crossing_state 0 []
    = Returns (Continue 1 [["1.3"; "1.2"]])
  /\ buffer_child_only (crossing_oracle false) crossing_below crossing_state
  /\ stack_parent_only (crossing_oracle false) crossing_below crossing_state
  /\ (exactly_one (buffer_child_only (crossing_oracle false) crossing_below crossing_state)
                  (stack_parent_only (crossing_oracle false) crossing_below crossing_state)
                  (buffer_parent_only (crossing_oracle false) crossing_below crossing_state)
      -> False)
  /\ get_action in_list_order (crossing_oracle false) crossing_state
     = Some (Returns (SWAP None), with_swapped (crossing_oracle false) [["1.3"; "1.2"]]).
Proof.
  assert (C1 : buffer_child_only (crossing_oracle false) crossing_below crossing_state).
  { apply (only_iff _ _ _ _ (any_in_children _ _ _) (any_in_children _ _ _)). reflexivity. }
  assert (C2 : stack_parent_only (crossing_oracle false) crossing_below crossing_state).
  { apply (only_iff _ _ _ _ (any_in_parents _ _ _) (any_in_parents _ _ _)). reflexivity. }
  split; [reflexivity|]. split; [exact C1|]. split; [exact C2|]. split; [|reflexivity].
  unfold exactly_one. tauto.
Qed.

Lemma swap_step_iff_some_condition_witness :
  swap_body (crossing_oracle false) crossing_top crossing_state 0 []
    = Returns (Continue 1 [["1.3"; "1.2"]])
  <-> (buffer_child_only (crossing_oracle false) crossing_below crossing_state
       \/ stack_parent_only (crossing_oracle false) crossing_below crossing_state
       \/ buffer_parent_only (crossing_oracle false) crossing_below crossing_state).
Proof.
  refine (proj1 (swap_step_iff_some_condition (crossing_oracle false) crossing_top crossing_below
            crossing_state 0 [] "1.2" _ _ _ _)); reflexivity.
Defined.

(** C4, as stated, fails: with edges_left empty the call raises nothing and
    returns FINISH once more. *)
Lemma finish_is_returned_again :
  get_action in_list_order
    (mkOracle [] [] [] (minimal_passage "T") false) (mkState [] ["1.2"])
  = Some (Returns FINISH, mkOracle [] [] [] (minimal_passage "T") false)
  /\ forall e : exn, Returns FINISH <> @Raises Action e.
Proof. split; [reflexivity | discriminate]. Qed.

Lemma get_action_finish_again_witness :
  get_action in_list_order
    (mkOracle [] [] [] (minimal_passage "T") false) (mkState ["1.1"] ["0.1"])
  = Some (Returns FINISH, mkOracle [] [] [] (minimal_passage "T") false).
Proof.
  apply (get_action_finish_again in_list_order
           (mkOracle [] [] [] (minimal_passage "T") false) (mkState ["1.1"] ["0.1"])).
  reflexivity.
Defined.

Lemma check_swap_distance_simple_witness :
  exists r o',
    check_swap_distance (crossing_oracle false) crossing_top crossing_state = Some (r, o') /\
    forall d, r = Returns d -> d = 0 \/ d = 1.
Proof.
  apply (check_swap_distance_simple (crossing_oracle false) crossing_top crossing_state).
  reflexivity.
Defined.

Lemma check_swap_distance_in_bounds_witness :
  exists r o',
    check_swap_distance (crossing_oracle true) crossing_top crossing_state = Some (r, o') /\
    r <> Raises IndexError /\
    forall d, r = Returns d -> d <= length (stack crossing_state) - 1.
Proof.
  apply (check_swap_distance_in_bounds (crossing_oracle true) crossing_top crossing_state).
  discriminate.
Defined.

(** Both distances occur without compound swaps, and the bound of C10 is
    reached with them. *)
Lemma check_swap_distance_values :
  check_swap_distance (crossing_oracle false) crossing_top crossing_state
    = Some (Returns 1, with_swapped (crossing_oracle false) [["1.3"; "1.2"]])
  /\ check_swap_distance (crossing_oracle false) crossing_top (mkState ["1.3"] ["0.1"])
    = Some (Returns 0, crossing_oracle false)
  /\ check_swap_distance (crossing_oracle true) crossing_top crossing_state
    = Some (Returns 1, with_swapped (crossing_oracle true) [["1.3"; "1.2"]]).
Proof. repeat split. Qed.

End OracleExamples.

(** ** The validator *)
Section ValidationFacts.
Import validation.
Variable tags : Tags.
Variable p : Passage.
Variable hs : list Node.

Lemma length_outgoing_in (n : Node) (l : list Node) :
  In n l -> length (outgoing n) <= length (flat_map outgoing l).
Proof.
  induction l as [|x l IH]; intros H; [contradiction|].
  simpl. rewrite length_app. destruct H as [->|H]; [lia|].
  specialize (IH H). lia.
Qed.

Lemma by_id_in (i : NodeID) (n : Node) : by_id p i = Some n -> In n (nodes_values p).
Proof. unfold by_id. intros H. apply find_some in H. tauto. Qed.

(** A candidate is a head, a node of the passage, or a bare node. *)
Lemma candidate_cases (n : Node) :
  In n (candidates p hs) -> In n (hs ++ nodes_values p) \/ outgoing n = [].
Proof.
  unfold candidates. intros H. apply in_app_or in H. destruct H as [H|H].
  - left. apply in_or_app. now left.
  - apply in_map_iff in H. destruct H as (e & <- & _).
    unfold endpoint. destruct (by_id p (edge_child e)) eqn:E.
    + left. apply in_or_app. right. eapply by_id_in; eauto.
    + now right.
Qed.

Lemma children_candidates (n : Node) :
  In n (candidates p hs) ->
  incl (children p n) (candidates p hs) /\
  length (children p n) <= length (candidates p hs).
Proof.
  intros H. unfold children. rewrite length_map.
  destruct (candidate_cases n H) as [Hin|Hout].
  - split.
    + intros c Hc. apply in_map_iff in Hc. destruct Hc as (e & <- & He).
      unfold candidates. apply in_or_app. right.
      apply (in_map (fun e0 => endpoint p (edge_child e0))). apply in_flat_map. eauto.
    + unfold candidates. rewrite length_app, length_map.
      pose proof (length_outgoing_in n _ Hin). lia.
  - rewrite Hout. split; [intros c []|simpl; lia].
Qed.

Lemma length_check_edge (node : Node) (e : Edge) : length (check_edge tags p node e) <= 2.
Proof.
  unfold check_edge. rewrite length_app.
  destruct (xorb _ _); destruct (xorb _ _); simpl; lia.
Qed.

Lemma length_check_node (node : Node) :
  length (check_node tags p node) <= 1 + 2 * length (outgoing node).
Proof.
  unfold check_node. rewrite length_app.
  assert (H : length (flat_map (check_edge tags p node) (outgoing node))
              <= 2 * length (outgoing node)).
  { induction (outgoing node) as [|e l IH]; simpl; [lia|].
    rewrite length_app. pose proof (length_check_edge node e). lia. }
  destruct (1 <? _); simpl; lia.
Qed.

Lemma set_add_new {A : Type} (dec : forall a b : A, {a = b} + {a <> b}) x s :
  ~ In x s -> set_add dec x s = x :: s.
Proof. intros H. unfold set_add. apply (set_mem_false dec) in H. now rewrite H. Qed.

Lemma NoDup_snoc {A : Type} (l : list A) (x : A) :
  NoDup l -> ~ In x l -> NoDup (l ++ [x]).
Proof.
  induction l as [|a l IH]; intros Hl Hx; simpl.
  - constructor; [intros [] | constructor].
  - inversion Hl; subst. constructor.
    + rewrite in_app_iff. simpl. intros [H|[H|[]]]; [contradiction|].
      subst. apply Hx. now left.
    + apply IH; auto. intros H. apply Hx. now right.
Qed.

Lemma last_cases {A : Type} (l : list A) : l = [] \/ exists l' a, l = l' ++ [a].
Proof.
  induction l as [|x l IH]; [now left|]. right.
  destruct IH as [->|(l' & a & ->)].
  - exists [], x. reflexivity.
  - exists (x :: l'), a. reflexivity.
Qed.

Lemma in_removelast {A : Type} (l : list A) (x : A) : In x (removelast l) -> In x l.
Proof.
  destruct (last_cases l) as [->|(l' & a & ->)]; [intros []|].
  rewrite removelast_last. intros H. apply in_or_app. now left.
Qed.

Lemma length_removelast_nonempty {A : Type} (l : list A) :
  l <> [] -> length (removelast l) + 1 = length l.
Proof.
  destruct (last_cases l) as [->|(l' & a & ->)]; [congruence|].
  intros _. rewrite removelast_last, length_app. reflexivity.
Qed.

Lemma last_in {A : Type} (l : list A) (d : A) : l <> [] -> In (last l d) l.
Proof.
  destruct (last_cases l) as [->|(l' & a & ->)]; [congruence|].
  intros _. rewrite last_last. apply in_elt.
Qed.

Lemma visited_bound (t : Traversal) :
  invariant p hs t -> length (visited t) <= length (candidates p hs).
Proof. intros (Hv & _ & _ & _ & Hc & _). now apply NoDup_incl_length. Qed.

(** The [else] of the [for] pops the path and the stack; the node it takes
    from [path_set] is in it, as [path_set.remove] requires. *)
Lemma for_else_invariant (t : Traversal) : invariant p hs t -> invariant p hs (for_else t).
Proof.
  intros (Hv & Hp & Hs & Hpv & Hc & Hf). unfold invariant, for_else. simpl.
  split; [exact Hv|].
  destruct (last_cases (path t)) as [E|(l & x & E)].
  - rewrite E in *. simpl.
    split; [constructor|]. split; [exact Hs|]. split; [intros n []|].
    split; [exact Hc|]. intros frame Hfr. apply Hf. now apply in_removelast.
  - rewrite E in *. rewrite removelast_last.
    assert (Hx : ~ In x l).
    { intros Hin. apply NoDup_remove_2 with (l := l) (l' := []) (a := x) in Hp.
      apply Hp. now rewrite app_nil_r. }
    split; [eapply NoDup_app_remove_r; eauto|].
    split.
    { intros n. destruct l as [|y l']; simpl app at 1.
      - simpl. rewrite in_set_remove, Hs. simpl. intuition congruence.
      - change ((y :: l') ++ [x]) with (y :: (l' ++ [x])).
        cbv iota. change (y :: (l' ++ [x])) with ((y :: l') ++ [x]).
        rewrite last_last, in_set_remove, Hs, in_app_iff. simpl.
        split; [intros [[H|[H|[]]] Hn]; auto; congruence|].
        intros H. split; [now left|]. intros ->. apply Hx, H. }
    split; [intros n Hn; apply Hpv, in_or_app; now left|].
    split; [exact Hc|].
    intros frame Hfr. apply Hf. now apply in_removelast.
Qed.

Lemma for_else_remaining (t : Traversal) :
  stack t <> [] -> remaining p hs (for_else t) + 1 = remaining p hs t.
Proof.
  intros H. unfold remaining, for_else. simpl.
  pose proof (length_removelast_nonempty (stack t) H). lia.
Qed.

Lemma of_traversal_check_node (node : Node) :
  forallb of_traversal (check_node tags p node) = true /\
  forallb (fun d => negb (is_cycle d)) (check_node tags p node) = true.
Proof.
  unfold check_node. rewrite !forallb_app. split; apply andb_true_iff; split.
  1, 3: destruct (1 <? _); reflexivity.
  all: induction (outgoing node) as [|e l IH]; [reflexivity|];
    simpl; rewrite forallb_app, IH, andb_true_r;
    unfold check_edge; destruct (xorb _ _); destruct (xorb _ _); reflexivity.
Qed.

(** What visiting a new node leaves. *)
Lemma visit_invariant (t : Traversal) (node : Node) :
  invariant p hs t -> In node (candidates p hs) -> ~ In node (visited t) ->
  let t' := mkTraversal (stack t ++ [children p node])
                        (set_add Node_eq_dec node (visited t))
                        (path t ++ [node])
                        (set_add Node_eq_dec node (path_set t)) in
  invariant p hs t' /\ remaining p hs t' + 1 <= remaining p hs t.
Proof.
  intros (Hv & Hp & Hs & Hpv & Hc & Hf) Hn Hnv t'. subst t'.
  assert (Hnp : ~ In node (path t)) by (intros H; apply Hnv, Hpv, H).
  assert (Hv' : NoDup (node :: visited t)) by (constructor; assumption).
  assert (Hc' : incl (node :: visited t) (candidates p hs)).
  { intros m [<-|Hm]; auto. }
  unfold invariant, remaining. simpl.
  rewrite (set_add_new Node_eq_dec node (visited t) Hnv).
  split.
  - split; [exact Hv'|]. split; [now apply NoDup_snoc|].
    split.
    { intros m. rewrite in_set_add, Hs, in_app_iff. simpl. intuition. }
    split.
    { intros m Hm. apply in_app_or in Hm. destruct Hm as [Hm|[<-|[]]]; [right; auto | now left]. }
    split; [exact Hc'|].
    intros frame Hfr. apply in_app_or in Hfr. destruct Hfr as [Hfr|[<-|[]]]; [now apply Hf|].
    now apply children_candidates.
  - pose proof (NoDup_incl_length Hv' Hc') as L. simpl in L.
    rewrite length_app. simpl. lia.
Qed.

(** One [for] loop over the rest [nodes] of the top frame. *)
Lemma for_loop_spec (t : Traversal) :
  invariant p hs t -> stack t <> [] ->
  forall nodes ds t',
    incl nodes (candidates p hs) ->
    for_loop tags p t nodes = (ds, t') ->
    invariant p hs t' /\
    remaining p hs t' + 1 <= remaining p hs t /\
    length ds <= length nodes + 1 + 2 * length (candidates p hs) /\
    forallb of_traversal ds = true /\
    (forall d, In d ds -> is_cycle d = true -> d = Detected_cycle (map ID (path t))).
Proof.
  intros Hinv Hst. induction nodes as [|node rest IH]; intros ds t' Hin H.
  - simpl in H. inversion H; subst.
    split; [now apply for_else_invariant|].
    split; [rewrite for_else_remaining; auto|].
    split; [simpl; lia|]. split; [reflexivity|]. intros d [].
  - simpl in H. unfold for_body in H.
    assert (Hn : In node (candidates p hs)) by (apply Hin; now left).
    assert (Hrest : incl rest (candidates p hs)) by (intros m Hm; apply Hin; now right).
    destruct (set_mem Node_eq_dec node (path_set t)) eqn:Eps.
    + destruct (for_loop tags p t rest) as [ds0 t0] eqn:F. inversion H; subst.
      destruct (IH ds0 t' Hrest eq_refl) as (I1 & I2 & I3 & I4 & I5).
      split; [exact I1|]. split; [exact I2|]. split; [simpl; simpl in I3; lia|].
      split; [simpl; exact I4|].
      intros d [<-|Hd] Hc; [reflexivity | now apply I5].
    + destruct (set_mem Node_eq_dec node (visited t)) eqn:Ev; simpl in H.
      * destruct (for_loop tags p t rest) as [ds0 t0] eqn:F. inversion H; subst.
        destruct (IH ds t' Hrest eq_refl) as (I1 & I2 & I3 & I4 & I5).
        split; [exact I1|]. split; [exact I2|]. split; [simpl; lia|].
        split; [exact I4 | exact I5].
      * inversion H; subst. apply set_mem_false in Ev.
        destruct (visit_invariant t node Hinv Hn Ev) as [V1 V2].
        split; [exact V1|]. split; [exact V2|].
        destruct (of_traversal_check_node node) as [K1 K2].
        split.
        { pose proof (length_check_node node).
          destruct (children_candidates node Hn) as [_ L].
          unfold children in L. rewrite length_map in L. simpl. lia. }
        split; [exact K1|].
        intros d Hd Hc. rewrite forallb_forall in K2. specialize (K2 d Hd).
        rewrite Hc in K2. discriminate.
Qed.

Lemma start_invariant : invariant p hs (start hs).
Proof.
  unfold invariant, start. simpl.
  split; [constructor|]. split; [constructor|]. split; [tauto|].
  split; [intros n []|]. split; [intros n []|].
  intros frame [<-|[]]. unfold candidates. split.
  - intros n Hn. apply in_or_app. now left.
  - rewrite length_app. lia.
Qed.

Lemma while_body_spec (t : Traversal) :
  invariant p hs t -> stack t <> [] ->
  invariant p hs (snd (while_body tags p t)) /\
  remaining p hs (snd (while_body tags p t)) + 1 <= remaining p hs t /\
  length (fst (while_body tags p t)) <= 1 + 3 * length (candidates p hs) /\
  forallb of_traversal (fst (while_body tags p t)) = true /\
  (forall d, In d (fst (while_body tags p t)) -> is_cycle d = true ->
     d = Detected_cycle (map ID (path t))).
Proof.
  intros Hinv Hst. unfold while_body.
  destruct (for_loop tags p t (last (stack t) [])) as [ds t'] eqn:F.
  destruct Hinv as (Hv & Hp & Hs & Hpv & Hc & Hf).
  destruct (Hf (last (stack t) []) (last_in _ _ Hst)) as [Fi Fl].
  destruct (for_loop_spec t (conj Hv (conj Hp (conj Hs (conj Hpv (conj Hc Hf))))) Hst
              _ ds t' Fi F) as (I1 & I2 & I3 & I4 & I5).
  simpl. split; [exact I1|]. split; [exact I2|]. split; [lia|].
  split; [exact I4 | exact I5].
Qed.

Lemma reachable_invariant (t : Traversal) : reachable tags p hs t -> invariant p hs t.
Proof.
  induction 1 as [|t R IH Hst]; [apply start_invariant|].
  now apply while_body_spec.
Qed.

(** The [while] loop ends within [remaining p hs t] passes. *)
Lemma while_loop_spec : forall fuel t,
  invariant p hs t -> remaining p hs t <= fuel ->
  exists ds,
    while_loop tags p fuel t = Some ds /\
    length ds <= remaining p hs t * (1 + 3 * length (candidates p hs)) /\
    forallb of_traversal ds = true.
Proof.
  induction fuel as [|fuel IH]; intros t Hinv Hfuel.
  - destruct (stack t) eqn:E.
    + exists []. simpl. rewrite E. repeat split. simpl. lia.
    + unfold remaining in Hfuel. rewrite E in Hfuel. simpl in Hfuel. lia.
  - simpl. destruct (stack t) eqn:E.
    + exists []. repeat split. simpl. lia.
    + assert (Hst : stack t <> []) by (rewrite E; discriminate).
      destruct (while_body_spec t Hinv Hst) as (B1 & B2 & B3 & B4 & _).
      destruct (while_body tags p t) as [ds t'] eqn:W. simpl in *.
      destruct (IH t' B1) as (ds' & E' & L' & K'); [lia|].
      rewrite E'. exists (ds ++ ds'). split; [reflexivity|].
      split; [rewrite length_app; nia|].
      rewrite forallb_app, B4, K'. reflexivity.
Qed.

Lemma while_loop_more_fuel : forall fuel fuel' t ds,
  while_loop tags p fuel t = Some ds -> fuel <= fuel' ->
  while_loop tags p fuel' t = Some ds.
Proof.
  induction fuel as [|fuel IH]; intros fuel' t ds H Hle.
  - simpl in H. destruct (stack t) eqn:E; [|discriminate].
    destruct fuel'; simpl; rewrite E; exact H.
  - destruct fuel' as [|fuel']; [lia|]. simpl in *.
    destruct (stack t); [exact H|].
    destruct (while_body tags p t) as [ds0 t'].
    destruct (while_loop tags p fuel t') as [ds'|] eqn:W; [|discriminate].
    rewrite (IH fuel' t' ds' W); [exact H | lia].
Qed.

(** The body of the [for] and the cycle message, in a state of the
    traversal. *)
Lemma for_body_cycle (t : Traversal) (node : Node) :
  reachable tags p hs t ->
  (In node (path t) <-> for_body tags p t node = Next [Detected_cycle (map ID (path t))]) /\
  (~ In node (path t) ->
     forallb (fun d => negb (is_cycle d)) (yielded (for_body tags p t node)) = true) /\
  (In node (visited t) -> ~ In node (path t) -> for_body tags p t node = Next []).
Proof.
  intros R. apply reachable_invariant in R. destruct R as (_ & _ & Hs & _).
  unfold for_body.
  destruct (set_mem Node_eq_dec node (path_set t)) eqn:Eps.
  - apply set_mem_true in Eps. apply Hs in Eps.
    split; [tauto|]. split; intros; contradiction.
  - apply set_mem_false in Eps. rewrite Hs in Eps.
    destruct (set_mem Node_eq_dec node (visited t)) eqn:Ev; simpl.
    + split; [split; [contradiction | discriminate]|]. split; reflexivity.
    + split; [split; [contradiction | discriminate]|].
      split; [intros _; apply of_traversal_check_node|].
      intros Hv. apply set_mem_false in Ev. contradiction.
Qed.

(** The whole run, from the heads [hs]. *)
Lemma validate_from_spec :
  exists trav,
    (forall fuel, enough_fuel p hs <= fuel ->
       validate_from tags p fuel hs =
         Some (flat_map check_terminal (layer0_all p) ++ flat_map (check_head tags) hs ++ trav)) /\
    forallb of_traversal trav = true /\
    length trav <= (2 * length (candidates p hs) + 1) * (1 + 3 * length (candidates p hs)).
Proof.
  assert (R : remaining p hs (start hs) = 2 * length (candidates p hs) + 1).
  { unfold remaining, start. simpl. lia. }
  destruct (while_loop_spec (remaining p hs (start hs)) (start hs) start_invariant (le_n _))
    as (trav & E & L & K).
  exists trav. split; [|split; [exact K | now rewrite <- R]].
  intros fuel Hfuel. unfold validate_from.
  rewrite (while_loop_more_fuel _ fuel _ _ E); [reflexivity|].
  unfold enough_fuel in Hfuel. lia.
Qed.

End ValidationFacts.

Section ValidateFacts.
Import validation.
Variable tags : Tags.
Variable p : Passage.

Lemma about_check_terminal (t x : Node) :
  filter (about t) (check_terminal x) = if Node_eq_dec x t then check_terminal x else [].
Proof.
  unfold check_terminal. destruct (incoming x) as [|e [|e' l]]; simpl;
    destruct (Node_eq_dec x t); reflexivity.
Qed.

Lemma about_terminals_absent (t : Node) (l : list Node) :
  ~ In t l -> filter (about t) (flat_map check_terminal l) = [].
Proof.
  induction l as [|x l IH]; intros H; [reflexivity|].
  simpl. rewrite filter_app, about_check_terminal, IH by (intros Hin; apply H; now right).
  destruct (Node_eq_dec x t) as [->|]; [|reflexivity].
  exfalso. apply H. now left.
Qed.

Lemma about_terminals (t : Node) (l : list Node) :
  NoDup l -> In t l -> filter (about t) (flat_map check_terminal l) = check_terminal t.
Proof.
  induction l as [|x l IH]; intros Hnd Hin; [contradiction|].
  inversion Hnd as [|? ? Hx Hl]; subst.
  simpl. rewrite filter_app, about_check_terminal.
  destruct (Node_eq_dec x t) as [->|Hne].
  - rewrite about_terminals_absent by assumption. apply app_nil_r.
  - destruct Hin as [->|Hin]; [contradiction|]. now rewrite IH.
Qed.

Lemma about_heads (t : Node) (l : list Node) :
  filter (about t) (flat_map (check_head tags) l) = [].
Proof.
  induction l as [|x l IH]; [reflexivity|].
  simpl. rewrite filter_app, IH. unfold check_head.
  destruct (negb _ && negb _); reflexivity.
Qed.

Lemma about_traversal (t : Node) (ds : list Diagnostic) :
  forallb of_traversal ds = true -> filter (about t) ds = [].
Proof.
  induction ds as [|d ds IH]; [reflexivity|].
  simpl. intros H. apply andb_true_iff in H. destruct H as [Hd Hds].
  rewrite (IH Hds). destruct d; try discriminate; reflexivity.
Qed.

(** C8: for a terminal t of the passage (layer 0 lists each terminal once),
    validate ends, and what it yields about t is exactly one Orphan
    terminal diagnostic when t has no incoming edge, exactly one Reentrant
    terminal diagnostic, with all the incoming edges of t, when it has more
    than one, and nothing when it has exactly one. *)
Theorem terminal_diagnostics (t : Node) :
  NoDup (layer0_all p) -> In t (layer0_all p) ->
  exists ds,
    validate tags p = Some ds /\
    (incoming t = [] -> filter (about t) ds = [Orphan_terminal t]) /\
    (1 < length (incoming t) ->
       filter (about t) ds = [Reentrant_terminal (incoming t) t]) /\
    (length (incoming t) = 1 -> filter (about t) ds = []).
Proof.
  intros Hnd Hin.
  destruct (validate_from_spec tags p (heads p)) as (trav & E & K & _).
  eexists. split; [apply E, le_n|].
  rewrite !filter_app, (about_terminals t _ Hnd Hin), about_heads, (about_traversal t trav K).
  simpl. rewrite app_nil_r. unfold check_terminal.
  destruct (incoming t) as [|e [|e' l]]; simpl;
    repeat split; intros; try reflexivity; try discriminate; lia.
Qed.

Lemma length_flat_map_filter {A B : Type} (f : A -> list B) (g : A -> bool) (l : list A) :
  length (flat_map f (filter g l)) <= length (flat_map f l).
Proof.
  induction l as [|x l IH]; [reflexivity|].
  simpl. destruct (g x); simpl; rewrite ?length_app; lia.
Qed.

Lemma length_flat_map_bound {A B : Type} (f : A -> list B) (k : nat) (l : list A) :
  (forall x, length (f x) <= k) -> length (flat_map f l) <= k * length l.
Proof.
  intros H. induction l as [|x l IH]; simpl; [lia|].
  rewrite length_app. specialize (H x). lia.
Qed.

Lemma length_candidates_heads :
  length (candidates p (heads p))
  <= length (layer1_all p) + 2 * length (flat_map outgoing (nodes_values p)).
Proof.
  unfold candidates, heads. rewrite length_app, length_map, flat_map_app, length_app.
  pose proof (filter_length_le (fun n => match incoming n with [] => true | _ :: _ => false end)
                (layer1_all p)) as H1.
  pose proof (length_flat_map_filter outgoing
                (fun n => match incoming n with [] => true | _ :: _ => false end)
                (layer1_all p)) as H2.
  unfold nodes_values. rewrite flat_map_app, length_app. lia.
Qed.

(** C9: on every passage, cyclic or not, validate ends: the fuel
    [enough_fuel], a function of the numbers of nodes and edges, and any
    larger one give the same finite sequence of diagnostics, whose length is
    bounded by a function of the numbers of nodes and edges.  The passage is
    only read: the call is a function of it and returns nothing else. *)
Theorem validate_terminates :
  exists ds,
    validate tags p = Some ds /\
    (forall fuel, enough_fuel p (heads p) <= fuel ->
       validate_from tags p fuel (heads p) = Some ds) /\
    length ds <= diagnostics_bound (length (layer0_all p)) (length (layer1_all p))
                   (length (flat_map outgoing (nodes_values p))).
Proof.
  destruct (validate_from_spec tags p (heads p)) as (trav & E & _ & L).
  eexists. split; [apply E, le_n|]. split; [exact E|].
  rewrite !length_app.
  assert (H0 : length (flat_map check_terminal (layer0_all p)) <= length (layer0_all p)).
  { rewrite (length_flat_map_bound check_terminal 1); [lia|].
    intros x. unfold check_terminal. destruct (incoming x) as [|e [|e' l]]; simpl; lia. }
  assert (H1 : length (flat_map (check_head tags) (heads p)) <= length (layer1_all p)).
  { rewrite (length_flat_map_bound (check_head tags) 1).
    - unfold heads. pose proof (filter_length_le
        (fun n => match incoming n with [] => true | _ :: _ => false end) (layer1_all p)). lia.
    - intros x. unfold check_head. destruct (negb _ && negb _); simpl; lia. }
  pose proof length_candidates_heads as HC.
  unfold diagnostics_bound.
  set (c := length (candidates p (heads p))) in *.
  set (b := length (layer1_all p) + 2 * length (flat_map outgoing (nodes_values p))) in *.
  assert ((2 * c + 1) * (1 + 3 * c) <= (2 * b + 1) * (1 + 3 * b)) by nia.
  lia.
Qed.

End ValidateFacts.

(** *** The validator on concrete passages *)
Section ValidateExamples.
Import validation example.

(** C7 (as the code has it): in every state of the traversal, the body of
    the [for] yields the cycle diagnostic, naming the current path, exactly
    for a node that is on the current path; for a node off the path it
    yields no cycle diagnostic, and for one in the visited set and off the
    path it yields nothing.  The traversal starts from the heads: for the
    cycle A -> B -> C -> A hanging from the root 1.1 by an edge to A,
    validate yields the cycle diagnostic with the path 1.1->A->B->C. *)
Theorem cycle_diagnostic_on_path (tags : Tags) (p : Passage) (hs : list Node)
    (t : Traversal) (node : Node) (str_node : Node -> string) (str_edge : Edge -> string) :
  reachable tags p hs t ->
  (In node (path t) <-> for_body tags p t node = Next [Detected_cycle (map ID (path t))]) /\
  (~ In node (path t) ->
     forallb (fun d => negb (is_cycle d)) (yielded (for_body tags p t node)) = true) /\
  (In node (visited t) -> ~ In node (path t) -> for_body tags p t node = Next []) /\
  validate ucca_tags rooted_cycle_passage
    = Some [Multiple_incoming [mkEdge "1.1" "A" "H" false; mkEdge "C" "A" "P" false];
            Detected_cycle ["1.1"; "A"; "B"; "C"]] /\
  message str_node str_edge (Detected_cycle ["1.1"; "A"; "B"; "C"])
    = "Detected cycle (1.1->A->B->C)".
Proof.
  intros R. destruct (for_body_cycle tags p hs t node R) as (H1 & H2 & H3).
  split; [exact H1|]. split; [exact H2|]. split; [exact H3|].
  split; reflexivity.
Qed.

Lemma at_cycle_end_reachable :
  reachable ucca_tags rooted_cycle_passage (heads rooted_cycle_passage) at_cycle_end.
Proof.
  unfold at_cycle_end.
  repeat (apply reachable_step; [|discriminate]).
  apply reachable_start.
Defined.

Lemma cycle_diagnostic_on_path_witness :
  for_body ucca_tags rooted_cycle_passage at_cycle_end (endpoint rooted_cycle_passage "A")
  = Next [Detected_cycle ["1.1"; "A"; "B"; "C"]].
Proof.
  apply (proj1 (proj1 (cycle_diagnostic_on_path ucca_tags rooted_cycle_passage
                         (heads rooted_cycle_passage) at_cycle_end
                         (endpoint rooted_cycle_passage "A") ID edge_tag
                         at_cycle_end_reachable))).
  simpl. auto.
Defined.

(** C7, as stated, fails: with the three nodes of the cycle alone beside
    the root, no node of the cycle is a head, the traversal never enters
    it, and validate yields nothing. *)
Lemma cycle_without_head :
  heads cycle_passage = [mkNode "1.1" "FN" false [] []]
  /\ validate ucca_tags cycle_passage = Some [].
Proof. split; reflexivity. Qed.

Lemma terminal_diagnostics_witness :
  exists ds,
    validate ucca_tags terminals_passage = Some ds /\
    (incoming reentrant = [] -> filter (about reentrant) ds = [Orphan_terminal reentrant]) /\
    (1 < length (incoming reentrant) ->
       filter (about reentrant) ds = [Reentrant_terminal (incoming reentrant) reentrant]) /\
    (length (incoming reentrant) = 1 -> filter (about reentrant) ds = []).
Proof.
  apply (terminal_diagnostics ucca_tags terminals_passage reentrant).
  - repeat constructor; simpl; intuition discriminate.
  - simpl. auto.
Defined.

(** The three terminals of the example passage by their diagnostics. *)
Lemma terminals_passage_diagnostics :
  validate ucca_tags terminals_passage
  = Some [Orphan_terminal orphan;
          Reentrant_terminal [mkEdge "1.2" "0.3" "T" false; mkEdge "1.3" "0.3" "T" false]
                             reentrant;
          Multiple_incoming [mkEdge "1.2" "0.3" "T" false; mkEdge "1.3" "0.3" "T" false]].
Proof. reflexivity. Qed.

End ValidateExamples.

(** ** The calls of the oracle, case by case *)
Section OracleOutcomes.
Import oracle.
Variable set_order : list Edge -> list Edge.
Hypothesis set_order_permutation : forall l, Permutation (set_order l) l.

Lemma in_scan (e : Edge) (a b : list Edge) :
  In e (set_order (set_inter Edge_eq_dec a b)) -> In e a /\ In e b.
Proof.
  intros H. apply in_set_inter with (eq_dec := Edge_eq_dec).
  eapply Permutation_in; [apply set_order_permutation | exact H].
Qed.

Lemma getitem_top {A : Type} (l : list A) :
  match getitem l (-1)%Z with
  | Some x => exists below, l = below ++ [x]
  | None => l = []
  end.
Proof.
  destruct (last_cases l) as [->|(l' & a & ->)].
  - now rewrite getitem_nil.
  - rewrite getitem_last. now exists l'.
Qed.

Lemma scan_node_outcome o st b : forall es r o',
  front_is o st b ->
  (forall e, In e es -> In e (edges_left o) /\ In e (incoming b)) ->
  scan_node o es = Some (r, o') -> outcome o st r o'.
Proof.
  induction es as [|edge rest IH]; simpl; intros r o' Hb Hes H; [discriminate|].
  destruct (set_mem string_dec (edge_parent edge) (nodes_left o) && negb (edge_remote edge)) eqn:E.
  - injection H as <- <-. apply andb_true_iff in E. destruct E as [E1 E2].
    apply set_mem_true in E1. apply negb_true_iff in E2.
    destruct (Hes edge (or_introl eq_refl)) as [H1 H2].
    now apply (out_node o st b edge).
  - apply IH; auto.
Qed.

Lemma scan_right_outcome o st s b : forall es r o',
  top_is o st s -> front_is o st b ->
  (forall e, In e es -> In e (edges_left o) /\ In e (outgoing s)) ->
  scan_right o b es = Some (r, o') -> outcome o st r o'.
Proof.
  induction es as [|edge rest IH]; simpl; intros r o' Hs Hb Hes H; [discriminate|].
  destruct (Hes edge (or_introl eq_refl)) as [H1 H2].
  destruct (String.eqb (edge_child edge) (ID b)) eqn:Eb.
  - injection H as <- <-. apply String.eqb_eq in Eb.
    now apply (out_right o st s b edge).
  - apply String.eqb_neq in Eb.
    destruct (implicit (endpoint (passage o) (edge_child edge))) eqn:Ei; [|apply IH; auto].
    simpl in H. destruct (set_mem string_dec (edge_child edge) (nodes_left o)) eqn:En;
      injection H as <- <-.
    + apply set_mem_true in En. now apply (out_implicit o st s b edge).
    + apply set_mem_false in En. now apply (out_implicit_unknown o st s b edge).
Qed.

Lemma scan_left_outcome o st s b : forall es r o',
  top_is o st s -> front_is o st b ->
  (forall e, In e es -> In e (edges_left o) /\ In e (outgoing b)) ->
  scan_left o s es = Some (r, o') -> outcome o st r o'.
Proof.
  induction es as [|edge rest IH]; simpl; intros r o' Hs Hb Hes H; [discriminate|].
  destruct (Hes edge (or_introl eq_refl)) as [H1 H2].
  destruct (String.eqb (edge_child edge) (ID s)) eqn:Eb; [|apply IH; auto].
  injection H as <- <-. apply String.eqb_eq in Eb.
  now apply (out_left o st s b edge).
Qed.

Lemma buffer_block_outcome o st top r o' :
  edges_left o <> [] ->
  match top with Some s => top_is o st s | None => stack st = [] end ->
  buffer_block set_order o st top = Some (r, o') -> outcome o st r o'.
Proof.
  intros Hne Htop H. unfold buffer_block in H.
  destruct (buffer st) as [|b_id rest] eqn:B.
  { injection H as <- <-. now apply out_wrap. }
  destruct (by_id (passage o) b_id) as [b|] eqn:Hb.
  2: { injection H as <- <-. now apply (out_front_unknown o st b_id rest). }
  assert (Fb : front_is o st b) by (exists b_id, rest; auto).
  destruct (scan_node o _) as [[r1 o1]|] eqn:N.
  { injection H as <- <-. eapply scan_node_outcome; eauto. intros e. apply in_scan. }
  unfold stack_block in H. destruct top as [s|].
  2: { injection H as <- <-. now apply (out_shift_empty_stack o st b). }
  destruct (scan_right o b _) as [[r1 o1]|] eqn:R.
  { injection H as <- <-. eapply scan_right_outcome; eauto. intros e. apply in_scan. }
  destruct (scan_left o s _) as [[r1 o1]|] eqn:L.
  { injection H as <- <-. eapply scan_left_outcome; eauto. intros e. apply in_scan. }
  destruct (check_swap_distance o s st) as [[[d|e] o1]|] eqn:C; [| |discriminate].
  - destruct (d =? 0) eqn:D; simpl in H; injection H as <- <-.
    + apply Nat.eqb_eq in D. subst d. now apply (out_shift o st s b).
    + apply Nat.eqb_neq in D. now apply (out_swap o st s b d).
  - injection H as <- <-. now apply (out_swap_raises o st s b e).
Qed.

(** Every call of get_action ends in one of the ways of [outcome]. *)
Lemma get_action_outcome o st r o' :
  get_action set_order o st = Some (r, o') -> outcome o st r o'.
Proof.
  unfold get_action. intros H.
  destruct (edges_left o) as [|e0 es] eqn:EL.
  { injection H as <- <-. now apply out_finish. }
  assert (Hne : edges_left o <> []) by (rewrite EL; discriminate).
  rewrite <- EL in H.
  pose proof (getitem_top (stack st)) as T.
  destruct (getitem (stack st) (-1)%Z) as [s_id|].
  2: { apply (buffer_block_outcome o st None); assumption. }
  destruct T as [below T].
  destruct (by_id (passage o) s_id) as [s|] eqn:Hs.
  2: { injection H as <- <-. now apply (out_top_unknown o st below s_id). }
  assert (Ts : top_is o st s) by (exists below, s_id; auto).
  destruct (set_inter Edge_eq_dec (edges_left o) (incoming s ++ outgoing s))
    as [|edge [|edge' more]] eqn:I.
  - injection H as <- <-. apply (out_reduce o st s); auto.
    intros e H1 H2.
    assert (Hin : In e (set_inter Edge_eq_dec (edges_left o) (incoming s ++ outgoing s)))
      by (apply in_set_inter; auto).
    rewrite I in Hin. contradiction.
  - destruct (String.eqb (edge_parent edge) ROOT_ID) eqn:P.
    + injection H as <- <-. apply String.eqb_eq in P.
      assert (Hin : In edge (set_inter Edge_eq_dec (edges_left o) (incoming s ++ outgoing s)))
        by (rewrite I; now left).
      apply in_set_inter in Hin. destruct Hin as [H1 H2].
      apply (out_root o st s edge); auto.
      intros e' H3 H4.
      assert (Hin : In e' (set_inter Edge_eq_dec (edges_left o) (incoming s ++ outgoing s)))
        by (apply in_set_inter; auto).
      rewrite I in Hin. destruct Hin as [Hin|[]]. now symmetry.
    + apply (buffer_block_outcome o st (Some s)); assumption.
  - apply (buffer_block_outcome o st (Some s)); assumption.
Qed.

End OracleOutcomes.

(** Case analysis on the way a call ended. *)
Ltac outcome_cases H :=
  destruct H as
    [ Hfin
    | below s_id Hne Hst Hnone
    | s Hne Ts Hno
    | s e Ts He Hs Hu Hp
    | Hne Hbuf
    | b_id rest Hne Hbuf Hnone
    | b e Fb He Hb Hn Hm
    | s b e Ts Fb He Hs Hc
    | s b e Ts Fb He Hs Hc Hi Hn
    | s b e Ts Fb He Hs Hc Hi Hn
    | s b e Ts Fb He Hb Hc
    | s b d o1 Ts Fb C D
    | s b x o1 Ts Fb C
    | s b o1 Ts Fb C
    | b Hne Hst Fb ].

Section OracleProperties.
Import oracle.
Variable set_order : list Edge -> list Edge.
Hypothesis set_order_permutation : forall l, Permutation (set_order l) l.

Lemma top_is_nonempty o st s : top_is o st s -> stack st <> [].
Proof. intros (below & s_id & E & _). rewrite E. now destruct below. Qed.

Lemma front_is_nonempty o st b : front_is o st b -> buffer st <> [].
Proof. intros (b_id & rest & E & _). rewrite E. discriminate. Qed.

Lemma check_swap_distance_unchanged o s st r o' :
  check_swap_distance o s st = Some (r, o') ->
  edges_left o' = edges_left o /\ nodes_left o' = nodes_left o /\
  passage o' = passage o /\ compound_swap o' = compound_swap o /\
  r <> Raises IndexError /\
  forall d, r = Returns d -> d = 0 \/ d + 1 <= length (stack st).
Proof.
  intros H.
  destruct (check_swap_distance_spec o s st) as (r1 & o1 & E & Hr & He & Hn & _ & Hd).
  rewrite E in H. injection H as <- <-.
  repeat split; auto.
  - unfold check_swap_distance in E.
    destruct (swap_loop _ o s st 0 (swapped o)) as [[r2 sw]|]; [|discriminate].
    now injection E as <- <-.
  - unfold check_swap_distance in E.
    destruct (swap_loop _ o s st 0 (swapped o)) as [[r2 sw]|]; [|discriminate].
    now injection E as <- <-.
  - intros d Hd'. apply (Hd d Hd').
Qed.

(** X1: the action get_action returns fits the state it was called with:
    WRAP comes with an empty buffer only; SHIFT and NODE with a buffer that
    is not empty; REDUCE and ROOT with a stack that is not empty; SWAP with
    at least two elements on the stack and a buffer that is not empty; the
    edge actions and IMPLICIT with neither stack nor buffer empty. *)
Theorem returned_action_fits_state (o : Oracle) (st : State) (a : Action) (o' : Oracle) :
  get_action set_order o st = Some (Returns a, o') ->
  match a with
  | FINISH => True
  | WRAP => buffer st = []
  | SHIFT | NODE _ _ => buffer st <> []
  | REDUCE | ROOT _ _ => stack st <> []
  | SWAP _ => 2 <= length (stack st) /\ buffer st <> []
  | IMPLICIT _ _ | RIGHT_EDGE _ | RIGHT_REMOTE _ | LEFT_EDGE _ | LEFT_REMOTE _ =>
      stack st <> [] /\ buffer st <> []
  end.
Proof.
  intros H. apply (get_action_outcome set_order set_order_permutation) in H.
  remember (Returns a) as r eqn:Hr.
  outcome_cases H;
    try discriminate; injection Hr as <-;
    try (apply top_is_nonempty in Ts); try (apply front_is_nonempty in Fb);
    try destruct (edge_remote e); auto.
  - apply check_swap_distance_unchanged in C.
    destruct C as (_ & _ & _ & _ & _ & Hd). destruct (Hd d eq_refl); [contradiction|].
    split; [lia | exact Fb].
Qed.

(** X2: an action that attaches an edge names an edge of edges_left, with
    its tag and with the endpoints the state gives it, and the call removes
    this edge (and no other) from edges_left: ROOT an edge of the stack top
    whose parent is the root; NODE a non-remote edge into the buffer front,
    whose parent is in nodes_left and becomes the new node; RIGHT-EDGE and
    RIGHT-REMOTE an edge from the stack top to the buffer front, remote or
    not as the action says; LEFT-EDGE and LEFT-REMOTE an edge from the buffer
    front to the stack top; IMPLICIT an edge from the stack top to an
    implicit child still in nodes_left. *)
Theorem attaching_action_names_remaining_edge (o : Oracle) (st : State) (a : Action)
    (o' : Oracle) :
  get_action set_order o st = Some (Returns a, o') ->
  attaches a = true ->
  exists e,
    In e (edges_left o) /\
    edges_left o' = set_remove Edge_eq_dec e (edges_left o) /\
    match a with
    | ROOT tag i =>
        tag = edge_tag e /\ i = ROOT_ID /\ edge_parent e = ROOT_ID /\
        exists s, top_is o st s /\ In e (incoming s ++ outgoing s)
    | NODE tag i =>
        tag = edge_tag e /\ i = edge_parent e /\ edge_remote e = false /\
        In i (nodes_left o) /\
        exists b, front_is o st b /\ In e (incoming b)
    | IMPLICIT tag i =>
        tag = edge_tag e /\ i = edge_child e /\
        implicit (endpoint (passage o) i) = true /\ In i (nodes_left o) /\
        exists s, top_is o st s /\ In e (outgoing s)
    | RIGHT_EDGE tag | RIGHT_REMOTE tag =>
        tag = edge_tag e /\
        edge_remote e = (match a with RIGHT_REMOTE _ => true | _ => false end) /\
        exists s b, top_is o st s /\ front_is o st b /\
                    In e (outgoing s) /\ edge_child e = ID b
    | LEFT_EDGE tag | LEFT_REMOTE tag =>
        tag = edge_tag e /\
        edge_remote e = (match a with LEFT_REMOTE _ => true | _ => false end) /\
        exists s b, top_is o st s /\ front_is o st b /\
                    In e (outgoing b) /\ edge_child e = ID s
    | _ => False
    end.
Proof.
  intros H Ha. apply (get_action_outcome set_order set_order_permutation) in H.
  remember (Returns a) as r eqn:Hr.
  outcome_cases H;
    try discriminate; injection Hr as <-; try discriminate.
  - exists e. split; [exact He|]. split; [reflexivity|]. eauto 10.
  - exists e. split; [exact He|]. split; [reflexivity|]. eauto 10.
  - exists e. split; [exact He|]. split; [reflexivity|].
    destruct (edge_remote e); eauto 10.
  - exists e. split; [exact He|]. split; [reflexivity|]. eauto 10.
  - exists e. split; [exact He|]. split; [reflexivity|].
    destruct (edge_remote e); eauto 10.
Qed.

End OracleProperties.

Section SetRemoveFacts.
Context {A : Type} (eq_dec : forall a b : A, {a = b} + {a <> b}).

Lemma NoDup_set_remove (x : A) (l : list A) : NoDup l -> NoDup (set_remove eq_dec x l).
Proof.
  unfold set_remove. induction l as [|a l IH]; intros H; [constructor|].
  inversion H as [|? ? Ha Hl]; subst. simpl.
  destruct (eq_dec x a); [now apply IH|].
  constructor; [|now apply IH].
  intros Hin. apply in_remove in Hin. tauto.
Qed.

Lemma set_remove_absent (x : A) (l : list A) : ~ In x l -> set_remove eq_dec x l = l.
Proof. intros H. unfold set_remove. now apply notin_remove. Qed.

Lemma length_set_remove_present (x : A) (l : list A) :
  In x l -> length (set_remove eq_dec x l) + 1 <= length l.
Proof.
  unfold set_remove. induction l as [|a l IH]; intros H; [contradiction|].
  simpl. destruct (eq_dec x a) as [->|Hne].
  - pose proof (remove_length_le eq_dec l a). lia.
  - destruct H as [->|H]; [congruence|]. simpl. specialize (IH H). lia.
Qed.

Lemma length_set_remove_NoDup (x : A) (l : list A) :
  NoDup l -> In x l -> length (set_remove eq_dec x l) + 1 = length l.
Proof.
  unfold set_remove. induction l as [|a l IH]; intros Hnd H; [contradiction|].
  inversion Hnd as [|? ? Ha Hl]; subst. simpl. destruct (eq_dec x a) as [->|Hne].
  - rewrite notin_remove by assumption. lia.
  - destruct H as [->|H]; [congruence|]. simpl. specialize (IH Hl H). lia.
Qed.

Lemma not_in_set_remove (x : A) (l : list A) : ~ In x (set_remove eq_dec x l).
Proof. intros H. apply in_set_remove in H. tauto. Qed.

End SetRemoveFacts.

Section OracleInvariant.
Import oracle.
Variable set_order : list Edge -> list Edge.
Hypothesis set_order_permutation : forall l, Permutation (set_order l) l.

Lemma consistent_without_edge o e : consistent o -> consistent (without_edge o e).
Proof.
  intros (H1 & H2 & H3 & H4 & H5). unfold consistent, without_edge. simpl.
  repeat split; auto using NoDup_set_remove.
  intros x Hx. apply H4. now apply set_remove_incl in Hx.
Qed.

Lemma consistent_without_edge_and_node o e i :
  consistent o -> consistent (without_edge_and_node o e i).
Proof.
  intros (H1 & H2 & H3 & H4 & H5). unfold consistent, without_edge_and_node. simpl.
  split; [now apply NoDup_set_remove|]. split; [now apply NoDup_set_remove|].
  split; [intros Hin; apply H3; now apply set_remove_incl in Hin|].
  split; intros x Hx; [apply H4 | apply H5]; now apply set_remove_incl in Hx.
Qed.

Lemma consistent_same_sets o o1 :
  edges_left o1 = edges_left o -> nodes_left o1 = nodes_left o ->
  passage o1 = passage o -> consistent o -> consistent o1.
Proof. unfold consistent. intros -> -> ->. tauto. Qed.

(** One call keeps [consistent], the passage and the flag. *)
Lemma get_action_consistent o st r o' :
  get_action set_order o st = Some (r, o') ->
  passage o' = passage o /\ compound_swap o' = compound_swap o /\
  (consistent o -> consistent o').
Proof.
  intros H. apply (get_action_outcome set_order set_order_permutation) in H.
  outcome_cases H;
    try (apply check_swap_distance_unchanged in C; destruct C as (C1 & C2 & C3 & C4 & _));
    (split; [try reflexivity; try assumption
            | split; [try reflexivity; try assumption | intros Hcons]]);
    first [ exact Hcons
          | now apply consistent_without_edge
          | now apply consistent_without_edge_and_node
          | apply (consistent_same_sets o); auto ].
Qed.

(** Any number of calls keeps [consistent], the passage and the flag. *)
Lemma calls_consistent (o : Oracle) (rs : list (result Action)) (o' : Oracle) :
  calls set_order o rs o' ->
  passage o' = passage o /\ compound_swap o' = compound_swap o /\
  (consistent o -> consistent o').
Proof.
  induction 1 as [o|o st r o1 rs o2 Hcall Hrest IH]; [tauto|].
  destruct (get_action_consistent o st r o1 Hcall) as (P & F & K).
  destruct IH as (P' & F' & K').
  split; [congruence|]. split; [congruence|]. auto.
Qed.

(** X4: over any sequence of calls of get_action, whatever the states
    passed, the oracle keeps its passage and its compound_swap flag, and, if
    it started consistent (as __init__ leaves it), stays so: edges_left and
    nodes_left hold no element twice, hold edges and structural nodes of
    the passage only, and the root is never in nodes_left. *)
Theorem calls_keep_consistency (o : Oracle) (rs : list (result Action)) (o' : Oracle) :
  calls set_order o rs o' ->
  passage o' = passage o /\ compound_swap o' = compound_swap o /\
  (consistent o -> consistent o').
Proof.
  intros Hcalls. exact (calls_consistent o rs o' Hcalls).
Qed.

(** What one call takes from the two sets of a consistent oracle. *)
Lemma call_takes (o : Oracle) (st : State) (a : Action) (o' : Oracle) :
  consistent o ->
  get_action set_order o st = Some (Returns a, o') ->
  (if attaches a then length (edges_left o') + 1 = length (edges_left o)
   else edges_left o' = edges_left o) /\
  (match a with
   | NODE _ _ | IMPLICIT _ _ => length (nodes_left o') + 1 = length (nodes_left o)
   | _ => nodes_left o' = nodes_left o
   end).
Proof.
  intros (N1 & N2 & _) H.
  apply (get_action_outcome set_order set_order_permutation) in H.
  remember (Returns a) as r eqn:Hr.
  outcome_cases H; try discriminate; injection Hr as <-;
    try destruct (edge_remote e); simpl;
    try (split; [now apply length_set_remove_NoDup|]; try reflexivity;
         now apply length_set_remove_NoDup);
    try (split; reflexivity).
  - apply check_swap_distance_unchanged in C. tauto.
  - apply check_swap_distance_unchanged in C. tauto.
Qed.

(** X5: what one call takes from the two sets of a consistent oracle: an
    action that attaches an edge takes exactly one edge from edges_left,
    every other action leaves edges_left as it is; NODE and IMPLICIT take
    exactly one node from nodes_left, every other action leaves nodes_left
    as it is. *)
Theorem call_takes_one_edge (o : Oracle) (st : State) (a : Action) (o' : Oracle) :
  consistent o ->
  get_action set_order o st = Some (Returns a, o') ->
  (if attaches a then length (edges_left o') + 1 = length (edges_left o)
   else edges_left o' = edges_left o) /\
  (match a with
   | NODE _ _ | IMPLICIT _ _ => length (nodes_left o') + 1 = length (nodes_left o)
   | _ => nodes_left o' = nodes_left o
   end).
Proof.
  intros Hcons H. exact (call_takes o st a o' Hcons H).
Qed.

End OracleInvariant.

Section OracleInit.
Import oracle.

(** A new oracle is consistent. *)
Lemma init_consistent (p : Passage) (compound : bool) : consistent (init p compound).
Proof.
  unfold consistent. simpl.
  split; [apply NoDup_nodup|].
  split; [apply NoDup_set_remove, NoDup_nodup|].
  split; [apply not_in_set_remove|].
  split.
  - intros e He. apply nodup_In in He. exact He.
  - intros i Hi. apply set_remove_incl in Hi. apply nodup_In in Hi. exact Hi.
Qed.


End OracleInit.

Section OracleRunFacts.
Import oracle.
Variable set_order : list Edge -> list Edge.
Hypothesis set_order_permutation : forall l, Permutation (set_order l) l.

Lemma count_attaching_cons r rs :
  count_attaching (r :: rs) =
  (match r with Returns a => if attaches a then 1 else 0 | Raises _ => 0 end) + count_attaching rs.
Proof.
  unfold count_attaching. simpl. destruct r as [a|e]; [destruct (attaches a)|]; reflexivity.
Qed.

(** One call: an attaching action costs edges_left at least one edge. *)
Lemma call_edges_bound o st r o' :
  get_action set_order o st = Some (r, o') ->
  (match r with Returns a => if attaches a then 1 else 0 | Raises _ => 0 end)
  + length (edges_left o') <= length (edges_left o).
Proof.
  intros H. apply (get_action_outcome set_order set_order_permutation) in H.
  outcome_cases H; try destruct (edge_remote e); simpl;
    try (pose proof (length_set_remove_present Edge_eq_dec e (edges_left o) He)); try lia.
  - apply check_swap_distance_unchanged in C. destruct C as (-> & _). lia.
  - apply check_swap_distance_unchanged in C. destruct C as (-> & _).
    destruct x; simpl; lia.
  - apply check_swap_distance_unchanged in C. destruct C as (-> & _). lia.
Qed.

(** The attaching actions of a sequence of calls and the edges left. *)
Lemma attached_edges (o : Oracle) (rs : list (result Action)) (o' : Oracle) :
  calls set_order o rs o' ->
  count_attaching rs + length (edges_left o') <= length (edges_left o) /\
  (consistent o -> (forall r, In r rs -> exists a, r = Returns a) ->
   count_attaching rs + length (edges_left o') = length (edges_left o)).
Proof.
  induction 1 as [o|o st r o1 rs o2 Hcall Hrest [IH1 IH2]].
  - split; [simpl; lia | intros; reflexivity].
  - rewrite count_attaching_cons. pose proof (call_edges_bound o st r o1 Hcall) as B.
    split; [lia|]. intros Hc Hret.
    destruct (Hret r (or_introl eq_refl)) as [a ->].
    destruct (call_takes set_order set_order_permutation o st a o1 Hc Hcall) as [T _].
    destruct (get_action_consistent set_order set_order_permutation o st _ o1 Hcall)
      as (_ & _ & K).
    specialize (IH2 (K Hc) (fun r' Hr' => Hret r' (or_intror Hr'))).
    destruct (attaches a); [lia|]. rewrite T in IH2. exact IH2.
Qed.

(** X6: in any sequence of calls, the number of returned actions that attach
    an edge, plus the number of edges left at the end, is at most the number
    of edges left at the start; it is equal to it when the oracle started
    consistent and no call raised. *)
Theorem attached_edges_bound (o : Oracle) (rs : list (result Action)) (o' : Oracle) :
  calls set_order o rs o' ->
  count_attaching rs + length (edges_left o') <= length (edges_left o) /\
  (consistent o -> (forall r, In r rs -> exists a, r = Returns a) ->
   count_attaching rs + length (edges_left o') = length (edges_left o)).
Proof.
  intros Hcalls. exact (attached_edges o rs o' Hcalls).
Qed.

(** FINISH is returned by its own [return] only. *)
Lemma finish_outcome o st o' :
  get_action set_order o st = Some (Returns FINISH, o') -> edges_left o = [] /\ o' = o.
Proof.
  intros H. apply (get_action_outcome set_order set_order_permutation) in H.
  remember (Returns FINISH) as r eqn:Hr.
  outcome_cases H; try discriminate; try (destruct (edge_remote e); discriminate).
  split; [assumption | reflexivity].
Qed.

(** X7: get_action returns FINISH exactly when edges_left is empty, and
    then it leaves the oracle as it is. *)
Theorem finish_iff_no_edge_left (o : Oracle) (st : State) (o' : Oracle) :
  get_action set_order o st = Some (Returns FINISH, o') <-> (edges_left o = [] /\ o' = o).
Proof.
  split; [apply finish_outcome|].
  intros [H ->]. unfold get_action. now rewrite H.
Qed.

(** X8: when a new oracle has been called any number of times without an
    exception and then returns FINISH, the actions returned before that
    count_attaching as many edges as the nodes of the passage have outgoing edges,
    each edge counted once. *)
Theorem finish_after_all_edges (p : Passage) (compound : bool)
    (rs : list (result Action)) (o' : Oracle) (st : State) (o'' : Oracle) :
  calls set_order (init p compound) rs o' ->
  (forall r, In r rs -> exists a, r = Returns a) ->
  get_action set_order o' st = Some (Returns FINISH, o'') ->
  count_attaching rs = length (nodup Edge_eq_dec (flat_map outgoing (nodes_values p))).
Proof.
  intros Hcalls Hret Hfin.
  destruct (attached_edges _ _ _ Hcalls) as [_ E].
  pose proof (init_consistent p compound) as Hc.
  specialize (E Hc Hret). apply finish_outcome in Hfin. destruct Hfin as [Hfin _].
  rewrite Hfin in E. simpl in E. lia.
Qed.

End OracleRunFacts.

Section OracleNodes.
Import oracle.
Variable set_order : list Edge -> list Edge.
Hypothesis set_order_permutation : forall l, Permutation (set_order l) l.

Lemma calls_app o l1 : forall l2 o',
  calls set_order o (l1 ++ l2) o' ->
  exists om, calls set_order o l1 om /\ calls set_order om l2 o'.
Proof.
  revert o. induction l1 as [|r l1 IH]; intros o l2 o' H.
  - exists o. split; [constructor | exact H].
  - simpl in H. inversion H as [|? st ? o1 ? ? Hcall Hrest]; subst.
    destruct (IH o1 l2 o' Hrest) as (om & H1 & H2).
    exists om. split; [econstructor; eauto | exact H2].
Qed.

(** A call that makes the node [i] finds it in nodes_left and takes it out. *)
Lemma make_takes_node o st a o2 i :
  get_action set_order o st = Some (Returns a, o2) -> makes i a = true ->
  In i (nodes_left o) /\ ~ In i (nodes_left o2).
Proof.
  intros H Hmk. apply (get_action_outcome set_order set_order_permutation) in H.
  remember (Returns a) as r eqn:Hr.
  outcome_cases H; try discriminate; injection Hr as <-;
    try (destruct (edge_remote e); discriminate);
    try (destruct (compound_swap o); discriminate); try discriminate;
    simpl in Hmk; apply String.eqb_eq in Hmk; subst i;
    (split; [assumption | apply not_in_set_remove]).
Qed.

Lemma call_nodes_incl o st r o1 :
  get_action set_order o st = Some (r, o1) -> incl (nodes_left o1) (nodes_left o).
Proof.
  intros H. destruct (get_action_monotone set_order o st) as (r' & o' & E & M).
  rewrite E in H. injection H as <- <-. apply M.
Qed.

Lemma calls_never_make o rs o' i :
  calls set_order o rs o' -> ~ In i (nodes_left o) ->
  forall a, In (Returns a) rs -> makes i a = false.
Proof.
  induction 1 as [o|o st r o1 rs o2 Hcall Hrest IH]; intros Hi a Ha; [contradiction|].
  destruct Ha as [->|Ha].
  - destruct (makes i a) eqn:M; [|reflexivity].
    destruct (make_takes_node o st a o1 i Hcall M). contradiction.
  - apply IH; auto. intros Hin. apply Hi. eapply call_nodes_incl; eauto.
Qed.

(** X9: over any sequence of calls, a node is made at most once: after
    NODE or IMPLICIT has been returned with the node ID i, no later call
    returns NODE or IMPLICIT with i again; and an oracle that started
    consistent never makes the root. *)
Theorem node_made_once (o : Oracle) (rs1 rs2 : list (result Action)) (a : Action)
    (i : NodeID) (o' : Oracle) :
  calls set_order o (rs1 ++ Returns a :: rs2) o' ->
  makes i a = true ->
  (forall a', In (Returns a') rs2 -> makes i a' = false) /\
  (consistent o -> i <> ROOT_ID).
Proof.
  intros H Hm. apply calls_app in H. destruct H as (om & H1 & H2).
  inversion H2 as [|? st ? o1 ? ? Hcall Hrest]; subst.
  destruct (make_takes_node om st a o1 i Hcall Hm) as [Hin Hout].
  split.
  - intros a' Ha'. eapply calls_never_make; eauto.
  - intros Hc -> .
    destruct (calls_consistent set_order set_order_permutation o rs1 om H1) as (_ & _ & K).
    destruct (K Hc) as (_ & _ & Hroot & _). contradiction.
Qed.

End OracleNodes.

Section OracleErrors.
Import oracle.
Variable set_order : list Edge -> list Edge.
Hypothesis set_order_permutation : forall l, Permutation (set_order l) l.

Lemma getitem_in {A : Type} (l : list A) (i : Z) (x : A) : getitem l i = Some x -> In x l.
Proof.
  unfold getitem. destruct (_ && _)%bool; [|discriminate]. apply nth_error_In.
Qed.

(** With every stack ID in the passage the loop of check_swap_distance
    raises nothing. *)
Lemma swap_loop_returns o s st :
  (forall i, In i (stack st) -> by_id (passage o) i <> None) ->
  forall fuel distance sw r sw',
    swap_loop fuel o s st distance sw = Some (r, sw') -> exists d, r = Returns d.
Proof.
  intros Hres. induction fuel as [|fuel IH]; intros distance sw r sw' H; simpl in H.
  - destruct (swap_guard o st distance); [discriminate|]. injection H as <- <-. eauto.
  - destruct (swap_guard o st distance) eqn:G; [|injection H as <- <-; eauto].
    unfold swap_body in H.
    destruct (getitem (stack st) (- Z.of_nat distance - 2)%Z) as [id2|] eqn:Eg.
    + apply getitem_in in Eg. specialize (Hres id2 Eg).
      destruct (by_id (passage o) id2) as [s2|]; [|congruence].
      destruct (in_swapped _ sw); [injection H as <- <-; eauto|].
      destruct (swap_condition _ _ st); [eauto | injection H as <- <-; eauto].
    + apply swap_guard_true in G. destruct G as [G _].
      destruct (getitem_negative (stack st) distance G) as [x Hx]. congruence.
Qed.

(** X10: get_action always ends, and never by an IndexError.  It returns an
    action, and raises nothing, when every ID on the stack and in the
    buffer is the ID of a node of the passage and every remaining edge to an
    implicit child has this child in nodes_left. *)
Theorem get_action_raises_key_errors_only (o : Oracle) (st : State) :
  exists r o',
    get_action set_order o st = Some (r, o') /\
    r <> Raises IndexError /\
    ((forall i, In i (stack st) \/ In i (buffer st) -> by_id (passage o) i <> None) ->
     (forall e, In e (edges_left o) ->
        implicit (endpoint (passage o) (edge_child e)) = true ->
        In (edge_child e) (nodes_left o)) ->
     exists a, r = Returns a).
Proof.
  destruct (get_action_monotone set_order o st) as (r & o' & E & _).
  exists r, o'. split; [exact E|].
  apply (get_action_outcome set_order set_order_permutation) in E.
  outcome_cases E; (split; [try discriminate|]); try (intros _ _; eauto; fail).
  - intros Hres _. exfalso. apply (Hres s_id); [|exact Hnone].
    left. rewrite Hst. apply in_elt.
  - intros Hres _. exfalso. apply (Hres b_id); [|exact Hnone].
    right. rewrite Hbuf. now left.
  - intros _ Himp. exfalso. apply Hn. now apply Himp.
  - apply check_swap_distance_unchanged in C. destruct C as (_ & _ & _ & _ & C & _).
    intros Heq. injection Heq as ->. now apply C.
  - intros Hres _. unfold check_swap_distance in C.
    destruct (swap_loop _ o s st 0 (swapped o)) as [[r2 sw]|] eqn:L; [|discriminate].
    injection C as -> _.
    apply (swap_loop_returns o s st (fun i Hi => Hres i (or_introl Hi))) in L.
    destruct L as [d L]. discriminate.
Qed.

(** X11: the distance SWAP carries: none when compound_swap is off; when it
    is on, the distance check_swap_distance found, at least 1 and at most
    len(stack) - 1. *)
Theorem swap_distance_argument (o : Oracle) (st : State) (arg : option nat) (o' : Oracle) :
  get_action set_order o st = Some (Returns (SWAP arg), o') ->
  (compound_swap o = false -> arg = None) /\
  (compound_swap o = true ->
     exists k s, arg = Some k /\ 1 <= k /\ k + 1 <= length (stack st) /\
                 check_swap_distance o s st = Some (Returns k, o')).
Proof.
  intros H. apply (get_action_outcome set_order set_order_permutation) in H.
  remember (Returns (SWAP arg)) as r eqn:Hr.
  outcome_cases H; try discriminate; try (destruct (edge_remote e); discriminate).
  injection Hr as Harg.
  pose proof (check_swap_distance_unchanged o s st _ _ C) as (_ & _ & _ & _ & _ & B).
  destruct (B d eq_refl) as [B0|B1]; [contradiction|].
  split; intros Hcomp; rewrite Hcomp in Harg; [congruence|].
  exists d, s. repeat split; auto; lia.
Qed.

End OracleErrors.

Section SwapHistory.
Import oracle.
Variable set_order : list Edge -> list Edge.

Lemma frozenset_eqb_refl (x : list NodeID) : frozenset_eqb x x = true.
Proof.
  unfold frozenset_eqb.
  assert (H : forallb (fun a => set_mem string_dec a x) x = true).
  { apply forallb_forall. intros a Ha. now apply set_mem_true. }
  now rewrite H.
Qed.

Lemma in_swapped_incl pair sw sw' :
  in_swapped pair sw = true -> incl sw sw' -> in_swapped pair sw' = true.
Proof.
  unfold in_swapped. rewrite !existsb_exists. intros (x & Hx & E) Hi. exists x. auto.
Qed.

Lemma in_swapped_add pair sw : in_swapped pair (swapped_add pair sw) = true.
Proof.
  unfold swapped_add. destruct (in_swapped pair sw) eqn:E; [exact E|].
  simpl. now rewrite frozenset_eqb_refl.
Qed.

(** What a pass through the body that goes on has found and recorded. *)
Lemma swap_body_records o s st distance sw d' sw' :
  swap_body o s st distance sw = Returns (Continue d' sw') ->
  exists id2 s2,
    getitem (stack st) (- Z.of_nat distance - 2)%Z = Some id2 /\
    by_id (passage o) id2 = Some s2 /\
    in_swapped (frozenset2 (ID s) (ID s2)) sw = false /\
    d' = distance + 1 /\ sw' = frozenset2 (ID s) (ID s2) :: sw.
Proof.
  unfold swap_body. intros H.
  destruct (getitem (stack st) _) as [id2|] eqn:Eg; [|discriminate].
  destruct (by_id (passage o) id2) as [s2|] eqn:Es; [|discriminate].
  destruct (in_swapped _ sw) eqn:E; [discriminate|].
  destruct (swap_condition _ _ st); [|discriminate].
  injection H as <- <-. exists id2, s2. unfold swapped_add. rewrite E.
  repeat split; auto.
Qed.

(** The loop records one pair for each step of the distance. *)
Lemma swap_loop_records o s st : forall fuel distance sw d sw',
  swap_loop fuel o s st distance sw = Some (Returns d, sw') ->
  length sw' + distance = length sw + d /\
  incl sw sw' /\
  (forall pair, In pair sw' -> In pair sw \/ In (ID s) pair).
Proof.
  induction fuel as [|fuel IH]; intros distance sw d sw' H; simpl in H.
  - destruct (swap_guard o st distance); [discriminate|]. injection H as <- <-.
    split; [lia|]. split; [apply incl_refl | auto].
  - destruct (swap_guard o st distance).
    2: { injection H as <- <-. split; [lia|]. split; [apply incl_refl | auto]. }
    destruct (swap_body o s st distance sw) as [[|d1 sw1]|e] eqn:B.
    + injection H as <- <-. split; [lia|]. split; [apply incl_refl | auto].
    + apply swap_body_records in B.
      destruct B as (id2 & s2 & _ & _ & _ & -> & ->).
      destruct (IH _ _ _ _ H) as (L & I & P). simpl in L.
      split; [lia|]. split.
      * intros x Hx. apply I. now right.
      * intros pair Hp. destruct (P pair Hp) as [[<-|Hin]|Hin]; auto.
        right. now left.
    + discriminate.
Qed.

(** X12: when check_swap_distance returns the distance d, it has added
    exactly d pairs to swapped, each with the stack top s in it, and has
    kept the pairs that were there. *)
Theorem check_swap_distance_records (o : Oracle) (s : Node) (st : State)
    (d : nat) (o' : Oracle) :
  check_swap_distance o s st = Some (Returns d, o') ->
  length (swapped o') = length (swapped o) + d /\
  incl (swapped o) (swapped o') /\
  (forall pair, In pair (swapped o') -> In pair (swapped o) \/ In (ID s) pair).
Proof.
  unfold check_swap_distance. intros H.
  destruct (swap_loop _ o s st 0 (swapped o)) as [[r sw]|] eqn:L; [|discriminate].
  injection H as -> <-. simpl.
  destruct (swap_loop_records o s st _ _ _ _ _ L) as (H1 & H2 & H3).
  split; [lia|]. split; assumption.
Qed.

(** Asked again in the same state, check_swap_distance finds no swap. *)
Lemma check_swap_distance_again o s st d o' :
  check_swap_distance o s st = Some (Returns d, o') ->
  check_swap_distance o' s st = Some (Returns 0, o').
Proof.
  unfold check_swap_distance. intros H.
  destruct (swap_loop _ o s st 0 (swapped o)) as [[r sw']|] eqn:L; [|discriminate].
  injection H as -> <-.
  change (swapped (with_swapped o sw')) with sw'.
  assert (E : swap_loop (length (stack st)) (with_swapped o sw') s st 0 sw'
              = Some (Returns 0, sw')).
  { destruct (length (stack st)) as [|fuel] eqn:Len; simpl in L |- *.
    - change (swap_guard (with_swapped o sw') st 0) with (swap_guard o st 0).
      destruct (swap_guard o st 0); [discriminate|]. now injection L as <- <-.
    - change (swap_guard (with_swapped o sw') st 0) with (swap_guard o st 0).
      destruct (swap_guard o st 0); [|now injection L as <- <-].
      change (swap_body (with_swapped o sw') s st 0 sw') with (swap_body o s st 0 sw').
      destruct (swap_body o s st 0 (swapped o)) as [[|d1 sw1]|e] eqn:B.
      + injection L as <- <-. now rewrite B.
      + apply swap_body_records in B.
        destruct B as (id2 & s2 & Hg & Hs2 & _ & -> & ->).
        apply swap_loop_records in L. destruct L as (_ & I & _).
        unfold swap_body. rewrite Hg, Hs2.
        rewrite (in_swapped_incl _ (frozenset2 (ID s) (ID s2) :: swapped o) sw'); auto.
        simpl. now rewrite frozenset_eqb_refl.
      + discriminate. }
  now rewrite E.
Qed.

Lemma scan_node_no_swap o : forall es r o',
  scan_node o es = Some (r, o') -> forall d, r <> Returns (SWAP d).
Proof.
  induction es as [|edge rest IH]; simpl; intros r o' H d; [discriminate|].
  destruct (_ && _)%bool; [injection H as <- <-; discriminate | eauto].
Qed.

Lemma scan_right_no_swap o b : forall es r o',
  scan_right o b es = Some (r, o') -> forall d, r <> Returns (SWAP d).
Proof.
  induction es as [|edge rest IH]; simpl; intros r o' H d; [discriminate|].
  destruct (String.eqb _ _).
  { injection H as <- <-. destruct (edge_remote edge); discriminate. }
  destruct (implicit _); [|eauto].
  destruct (set_mem _ _ _); injection H as <- <-; discriminate.
Qed.

Lemma scan_node_swapped o sw : forall es,
  scan_node o es = None -> scan_node (with_swapped o sw) es = None.
Proof.
  induction es as [|edge rest IH]; simpl; intros H; [reflexivity|].
  destruct (_ && _)%bool; [discriminate | auto].
Qed.

Lemma scan_right_swapped o sw b : forall es,
  scan_right o b es = None -> scan_right (with_swapped o sw) b es = None.
Proof.
  induction es as [|edge rest IH]; simpl; intros H; [reflexivity|].
  destruct (String.eqb _ _); [discriminate|].
  destruct (implicit _); [|auto].
  simpl in H. destruct (set_mem _ _ _); discriminate.
Qed.

Lemma scan_left_swapped o sw s : forall es,
  scan_left o s es = None -> scan_left (with_swapped o sw) s es = None.
Proof.
  induction es as [|edge rest IH]; simpl; intros H; [reflexivity|].
  destruct (String.eqb _ _); [discriminate | auto].
Qed.

(** X13: the oracle does not ask for the same swap twice: when get_action
    has returned SWAP and is called again with the same state, it returns
    SHIFT and changes nothing. *)
Theorem no_swap_twice (o : Oracle) (st : State) (arg : option nat) (o' : Oracle) :
  get_action set_order o st = Some (Returns (SWAP arg), o') ->
  get_action set_order o' st = Some (Returns SHIFT, o').
Proof.
  unfold get_action at 1. intros H.
  destruct (edges_left o) as [|e0 es] eqn:EL; [discriminate|].
  rewrite <- EL in H.
  pose proof (getitem_top (stack st)) as T.
  destruct (getitem (stack st) (-1)%Z) as [s_id|] eqn:G.
  2: { unfold buffer_block in H. destruct (buffer st) as [|b_id rest]; [discriminate|].
       destruct (by_id (passage o) b_id) as [b|]; [|discriminate].
       destruct (scan_node o _) as [[r1 o1]|] eqn:N; [|discriminate].
       injection H as -> _. exfalso. eapply scan_node_no_swap; eauto. }
  destruct T as [below T].
  destruct (by_id (passage o) s_id) as [s|] eqn:Hs; [|discriminate].
  assert (B : buffer_block set_order o st (Some s) = Some (Returns (SWAP arg), o')).
  { destruct (set_inter Edge_eq_dec (edges_left o) (incoming s ++ outgoing s))
      as [|edge [|edge' more]]; [discriminate| |exact H].
    destruct (String.eqb (edge_parent edge) ROOT_ID); [discriminate | exact H]. }
  assert (R : match set_inter Edge_eq_dec (edges_left o) (incoming s ++ outgoing s) with
              | [] => False
              | [e] => String.eqb (edge_parent e) ROOT_ID = false
              | _ :: _ :: _ => True
              end).
  { destruct (set_inter Edge_eq_dec (edges_left o) (incoming s ++ outgoing s))
      as [|edge [|edge' more]]; [discriminate| |exact I].
    destruct (String.eqb (edge_parent edge) ROOT_ID); [discriminate | reflexivity]. }
  clear H. unfold buffer_block in B.
  destruct (buffer st) as [|b_id rest] eqn:Hbuf; [discriminate|].
  destruct (by_id (passage o) b_id) as [b|] eqn:Hb; [|discriminate].
  destruct (scan_node o _) as [[r1 o1]|] eqn:N.
  { injection B as -> _. exfalso. eapply scan_node_no_swap; eauto. }
  unfold stack_block in B.
  destruct (scan_right o b _) as [[r1 o1]|] eqn:SR.
  { injection B as -> _. exfalso. eapply scan_right_no_swap; eauto. }
  destruct (scan_left o s _) as [[r1 o1]|] eqn:SL.
  { injection B as -> _. apply scan_left_kind in SL. destruct SL as [e [SL|SL]]; discriminate. }
  destruct (check_swap_distance o s st) as [[[d|x] o1]|] eqn:C; try discriminate.
  assert (o1 = o') as ->.
  { destruct (negb (d =? 0)); now injection B as _ <-. }
  clear B. pose proof (check_swap_distance_again o s st d o' C) as Again.
  unfold check_swap_distance in C.
  destruct (swap_loop _ o s st 0 (swapped o)) as [[r2 sw']|]; [|discriminate].
  injection C as _ <-.
  assert (Hne : edges_left (with_swapped o sw') <> []) by (simpl; rewrite EL; discriminate).
  rewrite (get_action_past_node set_order (with_swapped o sw') st s b s_id b_id below rest
             Hne T Hs R Hbuf Hb (scan_node_swapped o sw' _ N)).
  unfold stack_block.
  change (edges_left (with_swapped o sw')) with (edges_left o).
  rewrite (scan_right_swapped o sw' b _ SR), (scan_left_swapped o sw' s _ SL), Again.
  reflexivity.
Qed.

End SwapHistory.

(** *** The properties of the calls on the concrete oracles *)
Section OracleCallExamples.
Import oracle example.

(** The calls on the minimal passage: ROOT, REDUCE, NODE, then FINISH. *)
Lemma minimal_calls :
  calls in_list_order minimal_start
    [Returns (ROOT "A" "1.1"); Returns REDUCE; Returns (NODE "T" "1.2"); Returns FINISH]
    minimal_done.
Proof.
  apply (calls_more in_list_order minimal_start (mkState ["1.1"] ["0.1"]) _ minimal_after_root);
    [reflexivity|].
  apply (calls_more in_list_order _ (mkState ["1.1"] ["0.1"]) _ minimal_after_root);
    [reflexivity|].
  apply (calls_more in_list_order _ (mkState [] ["0.1"]) _ minimal_done); [reflexivity|].
  apply (calls_more in_list_order _ (mkState ["1.2"] []) _ minimal_done); [reflexivity|].
  apply calls_none.
Defined.

Lemma minimal_calls_before_finish :
  calls in_list_order minimal_start
    [Returns (ROOT "A" "1.1"); Returns REDUCE; Returns (NODE "T" "1.2")]
    minimal_done.
Proof.
  apply (calls_more in_list_order minimal_start (mkState ["1.1"] ["0.1"]) _ minimal_after_root);
    [reflexivity|].
  apply (calls_more in_list_order _ (mkState ["1.1"] ["0.1"]) _ minimal_after_root);
    [reflexivity|].
  apply (calls_more in_list_order _ (mkState [] ["0.1"]) _ minimal_done); [reflexivity|].
  apply calls_none.
Defined.

Lemma returned_action_fits_state_witness :
  2 <= length (stack crossing_state) /\ buffer crossing_state <> [].
Proof.
  exact (returned_action_fits_state in_list_order in_list_order_permutation
           (crossing_oracle false) crossing_state (SWAP None) (crossing_swapped false)
           eq_refl).
Defined.

Lemma attaching_action_names_remaining_edge_witness :
  exists e,
    In e (edges_left implicit_oracle) /\
    edges_left (without_edge_and_node implicit_oracle to_implicit "1.3")
      = set_remove Edge_eq_dec e (edges_left implicit_oracle) /\
    "A" = edge_tag e /\ "1.3" = edge_child e /\
    implicit (endpoint (passage implicit_oracle) "1.3") = true /\
    In "1.3" (nodes_left implicit_oracle) /\
    exists s, top_is implicit_oracle implicit_state s /\ In e (outgoing s).
Proof.
  exact (attaching_action_names_remaining_edge in_list_order in_list_order_permutation
           implicit_oracle implicit_state (IMPLICIT "A" "1.3")
           (without_edge_and_node implicit_oracle to_implicit "1.3") eq_refl eq_refl).
Defined.

Lemma calls_keep_consistency_witness :
  passage minimal_done = passage minimal_start /\
  compound_swap minimal_done = compound_swap minimal_start /\
  (consistent minimal_start -> consistent minimal_done).
Proof.
  exact (calls_keep_consistency in_list_order in_list_order_permutation
           minimal_start _ minimal_done minimal_calls).
Defined.

Lemma call_takes_one_edge_witness :
  length (edges_left minimal_after_root) + 1 = length (edges_left minimal_start) /\
  nodes_left minimal_after_root = nodes_left minimal_start.
Proof.
  exact (call_takes_one_edge in_list_order in_list_order_permutation
           minimal_start (mkState ["1.1"] ["0.1"]) (ROOT "A" "1.1") minimal_after_root
           (init_consistent (minimal_passage "T") false) eq_refl).
Defined.

Lemma attached_edges_bound_witness :
  count_attaching [Returns (ROOT "A" "1.1"); Returns REDUCE; Returns (NODE "T" "1.2"); Returns FINISH]
  + length (edges_left minimal_done) <= length (edges_left minimal_start).
Proof.
  exact (proj1 (attached_edges_bound in_list_order in_list_order_permutation
                  minimal_start _ minimal_done minimal_calls)).
Defined.

Lemma finish_iff_no_edge_left_witness :
  get_action in_list_order minimal_done (mkState ["1.2"] []) = Some (Returns FINISH, minimal_done)
  <-> (edges_left minimal_done = [] /\ minimal_done = minimal_done).
Proof.
  exact (finish_iff_no_edge_left in_list_order in_list_order_permutation
           minimal_done (mkState ["1.2"] []) minimal_done).
Defined.

Lemma finish_after_all_edges_witness :
  count_attaching [Returns (ROOT "A" "1.1"); Returns REDUCE; Returns (NODE "T" "1.2")]
  = length (nodup Edge_eq_dec (flat_map outgoing (nodes_values (minimal_passage "T")))).
Proof.
  apply (finish_after_all_edges in_list_order in_list_order_permutation
           (minimal_passage "T") false _ minimal_done (mkState ["1.2"] []) minimal_done
           minimal_calls_before_finish).
  - intros r [<-|[<-|[<-|[]]]]; eauto.
  - reflexivity.
Defined.

Lemma node_made_once_witness :
  (forall a', In (Returns a') [Returns FINISH] -> makes "1.2" a' = false) /\
  (consistent minimal_start -> "1.2" <> ROOT_ID).
Proof.
  exact (node_made_once in_list_order in_list_order_permutation minimal_start
           [Returns (ROOT "A" "1.1"); Returns REDUCE] [Returns FINISH]
           (NODE "T" "1.2") "1.2" minimal_done minimal_calls eq_refl).
Defined.

Lemma get_action_raises_key_errors_only_witness :
  exists r o',
    get_action in_list_order implicit_oracle implicit_state = Some (r, o') /\
    r <> Raises IndexError.
Proof.
  destruct (get_action_raises_key_errors_only in_list_order in_list_order_permutation
              implicit_oracle implicit_state) as (r & o' & E & N & _).
  exists r, o'. split; assumption.
Defined.

Lemma swap_distance_argument_witness :
  exists k s, Some 1 = Some k /\ 1 <= k /\ k + 1 <= length (stack crossing_state) /\
              check_swap_distance (crossing_oracle true) s crossing_state
                = Some (Returns k, crossing_swapped true).
Proof.
  exact (proj2 (swap_distance_argument in_list_order in_list_order_permutation
                  (crossing_oracle true) crossing_state (Some 1) (crossing_swapped true)
                  eq_refl) eq_refl).
Defined.

Lemma check_swap_distance_records_witness :
  length (swapped (crossing_swapped false)) = length (swapped (crossing_oracle false)) + 1.
Proof.
  exact (proj1 (check_swap_distance_records (crossing_oracle false) crossing_top
                  crossing_state 1 (crossing_swapped false) eq_refl)).
Defined.

Lemma no_swap_twice_witness :
  get_action in_list_order (crossing_swapped false) crossing_state
  = Some (Returns SHIFT, crossing_swapped false).
Proof.
  exact (no_swap_twice in_list_order (crossing_oracle false) crossing_state None
           (crossing_swapped false) eq_refl).
Defined.

End OracleCallExamples.

(** ** The traversal of the validator, pass by pass *)
Section TraversalFacts.
Import validation.
Variable tags : Tags.
Variable p : Passage.
Variable hs : list Node.

Lemma filter_not_cycle_check_node (node : Node) :
  filter (fun d => negb (is_cycle d)) (check_node tags p node) = check_node tags p node.
Proof.
  destruct (of_traversal_check_node tags p node) as [_ H].
  induction (check_node tags p node) as [|d l IH]; [reflexivity|].
  simpl in *. apply andb_true_iff in H. destruct H as [H1 H2].
  rewrite H1. now rewrite IH.
Qed.

(** The two ways a [for] loop ends: by its [else], every node scanned being
    on the path (then the cycle diagnostic is yielded) or visited; or by
    [break], at the first node that is neither. *)
Lemma for_loop_cases (t : Traversal) : forall nodes ds t',
  for_loop tags p t nodes = (ds, t') ->
  (t' = for_else t /\
   filter (fun d => negb (is_cycle d)) ds = [] /\
   (forall node, In node nodes -> In node (path_set t) \/ In node (visited t)) /\
   (forall node, In node nodes -> In node (path_set t) ->
      In (Detected_cycle (map ID (path t))) ds))
  \/
  (exists node,
     In node nodes /\ ~ In node (path_set t) /\ ~ In node (visited t) /\
     t' = visit p t node /\
     filter (fun d => negb (is_cycle d)) ds = check_node tags p node).
Proof.
  induction nodes as [|node rest IH]; intros ds t' H; simpl in H.
  - injection H as <- <-. left. repeat split; auto; intros node [].
  - unfold for_body in H.
    destruct (set_mem Node_eq_dec node (path_set t)) eqn:Eps.
    + apply set_mem_true in Eps.
      destruct (for_loop tags p t rest) as [ds0 t0] eqn:F. injection H as <- <-.
      destruct (IH ds0 t0 eq_refl) as [(E & N & V & Cy)|(n & Hn & Hp & Hv & E & N)].
      * left. split; [exact E|]. split; [simpl; exact N|]. split.
        -- intros m [<-|Hm]; [now left | now apply V].
        -- intros m [<-|Hm] Hmp; [now left | right; now apply (Cy m)].
      * right. exists n. split; [now right|]. repeat split; auto.
    + apply set_mem_false in Eps.
      destruct (set_mem Node_eq_dec node (visited t)) eqn:Ev; simpl in H.
      * apply set_mem_true in Ev.
        destruct (for_loop tags p t rest) as [ds0 t0] eqn:F. injection H as <- <-.
        destruct (IH ds0 t0 eq_refl) as [(E & N & V & Cy)|(n & Hn & Hp & Hv & E & N)].
        -- left. split; [exact E|]. split; [exact N|]. split.
           ++ intros m [<-|Hm]; [now right | now apply V].
           ++ intros m [<-|Hm] Hmp; [contradiction | now apply (Cy m)].
        -- right. exists n. split; [now right|]. repeat split; auto.
      * apply set_mem_false in Ev. injection H as <- <-.
        right. exists node. split; [now left|]. repeat split; auto.
        apply filter_not_cycle_check_node.
Qed.

Lemma while_loop_steps : forall fuel t ds,
  while_loop tags p fuel t = Some ds -> exists t', steps tags p t ds t'.
Proof.
  induction fuel as [|fuel IH]; intros t ds H; simpl in H.
  - destruct (stack t) eqn:E; [|discriminate]. injection H as <-.
    exists t. now constructor.
  - destruct (stack t) eqn:E.
    + injection H as <-. exists t. now constructor.
    + destruct (while_body tags p t) as [ds0 t1] eqn:W.
      destruct (while_loop tags p fuel t1) as [ds1|] eqn:L; [|discriminate].
      injection H as <-. destruct (IH t1 ds1 L) as [t' S].
      exists t'. eapply steps_more; eauto. rewrite E. discriminate.
Qed.

Lemma steps_end t ds t' : steps tags p t ds t' -> stack t' = [].
Proof. induction 1; auto. Qed.

Lemma descends_snoc (nodes : list Node) (n d : Node) :
  descends p nodes -> (nodes = [] \/ In n (children p (last nodes d))) ->
  descends p (nodes ++ [n]).
Proof.
  induction nodes as [|a l IH]; intros H Hl; [simpl; auto|].
  destruct H as [H1 H2]. destruct Hl as [Hl|Hl]; [discriminate|].
  destruct l as [|b l'].
  - simpl in *. auto.
  - change ((a :: b :: l') ++ [n]) with (a :: ((b :: l') ++ [n])).
    split; [exact H1|]. apply IH; [exact H2|]. right. exact Hl.
Qed.

Lemma descends_init (nodes : list Node) (n : Node) :
  descends p (nodes ++ [n]) -> descends p nodes.
Proof.
  induction nodes as [|a l IH]; intros H; [exact I|].
  change ((a :: l) ++ [n]) with (a :: (l ++ [n])) in H. destruct H as [H1 H2].
  split; [|now apply IH].
  destruct l as [|b l']; [exact I | exact H1].
Qed.

Lemma last_map_children (nodes : list Node) (x : Node) (d : list Node) :
  last (hs :: map (children p) (nodes ++ [x])) d = children p x.
Proof.
  rewrite map_app. simpl map.
  change (hs :: (map (children p) nodes ++ [children p x]))
    with ((hs :: map (children p) nodes) ++ [children p x]).
  apply last_last.
Qed.

(** The frame on top of the stack: the heads, or the children of the last
    node of the path. *)
Lemma top_frame (t : Traversal) :
  shaped p hs t -> stack t <> [] ->
  match path t with
  | [] => last (stack t) [] = hs /\ stack t = [hs]
  | _ :: _ => last (stack t) [] = children p (last (path t) (mkNode "" "" false [] []))
  end.
Proof.
  intros [[E _]|E] Hst; [contradiction|].
  destruct (path t) as [|a l'] eqn:Ep.
  - rewrite E. simpl. auto.
  - destruct (last_cases (a :: l')) as [C|(l & x & C)]; [discriminate|].
    rewrite E, C, last_map_children, last_last. reflexivity.
Qed.

(** One pass through the body of the [while]: the top frame is popped, all
    its nodes being visited, or its first node not yet visited is visited. *)
Lemma while_body_cases (t : Traversal) (ds : list Diagnostic) (t1 : Traversal) :
  invariant p hs t -> stack t <> [] ->
  while_body tags p t = (ds, t1) ->
  (t1 = for_else t /\
   filter (fun d => negb (is_cycle d)) ds = [] /\
   (forall node, In node (last (stack t) []) -> In node (visited t)) /\
   (forall node, In node (last (stack t) []) -> In node (path t) ->
      In (Detected_cycle (map ID (path t))) ds))
  \/
  (exists node,
     In node (last (stack t) []) /\ ~ In node (path t) /\ ~ In node (visited t) /\
     t1 = visit p t node /\
     filter (fun d => negb (is_cycle d)) ds = check_node tags p node).
Proof.
  intros (_ & _ & Hs & Hpv & _) Hst W. unfold while_body in W.
  destruct (for_loop_cases t _ _ _ W) as [(E & N & V & Cy)|(n & Hn & Hp & Hv & E & N)].
  - left. split; [exact E|]. split; [exact N|]. split.
    + intros node Hin. destruct (V node Hin) as [H|H]; [|exact H].
      apply Hpv. now apply Hs.
    + intros node Hin Hpath. apply (Cy node Hin). now apply Hs.
  - right. exists n. split; [exact Hn|]. split; [now rewrite <- Hs|]. auto.
Qed.

Lemma visit_shaped (t : Traversal) (node : Node) :
  shaped p hs t -> stack t <> [] -> shaped p hs (visit p t node).
Proof.
  intros [[E _]|E] Hst; [contradiction|]. right. unfold visit. simpl.
  rewrite E, map_app. reflexivity.
Qed.

Lemma visit_explored (t : Traversal) (node : Node) :
  invariant p hs t -> shaped p hs t -> explored p hs t -> stack t <> [] ->
  In node (last (stack t) []) -> ~ In node (visited t) ->
  explored p hs (visit p t node).
Proof.
  intros (_ & _ & _ & Hpv & _) Sh (X1 & X2 & X3 & X4) Hst Hin Hnv.
  pose proof (top_frame t Sh Hst) as F.
  unfold explored, visit. simpl. rewrite (set_add_new Node_eq_dec node (visited t) Hnv).
  split; [|split; [|split]].
  - intros n [<-|Hn].
    + left. apply in_or_app. right. now left.
    + destruct (X1 n Hn) as [H|H]; [left; apply in_or_app; now left|].
      right. intros c Hc. right. now apply H.
  - intros n [<-|Hn]; [|now apply X2].
    destruct (path t) as [|a l] eqn:Ep.
    + destruct F as [F _]. rewrite F in Hin. now apply descendant_head.
    + rewrite F in Hin. eapply descendant_child; [|exact Hin].
      apply X2, Hpv. apply last_in. discriminate.
  - destruct (path t) as [|a l] eqn:Ep; simpl.
    + destruct F as [F _]. now rewrite F in Hin.
    + exact X3.
  - apply (descends_snoc (path t) node (mkNode "" "" false [] [])); [exact X4|].
    destruct (path t) as [|a l] eqn:Ep; [now left|]. right. now rewrite <- F.
Qed.

Lemma for_else_shaped (t : Traversal) :
  shaped p hs t -> stack t <> [] ->
  (forall node, In node (last (stack t) []) -> In node (visited t)) ->
  shaped p hs (for_else t).
Proof.
  intros Sh Hst Hall. pose proof (top_frame t Sh Hst) as F.
  destruct Sh as [[E _]|E]; [contradiction|].
  destruct (last_cases (path t)) as [Ep|(l & x & Ep)].
  - rewrite Ep in F. destruct F as [F1 F2]. left. unfold for_else. simpl.
    rewrite F2, Ep. simpl. repeat split; auto.
    intros n Hn. apply Hall. now rewrite F1.
  - right. unfold for_else. simpl. rewrite E, Ep, removelast_last, map_app. simpl map.
    change (hs :: (map (children p) l ++ [children p x]))
      with ((hs :: map (children p) l) ++ [children p x]).
    now rewrite removelast_last.
Qed.

Lemma for_else_explored (t : Traversal) :
  shaped p hs t -> explored p hs t -> stack t <> [] ->
  (forall node, In node (last (stack t) []) -> In node (visited t)) ->
  explored p hs (for_else t).
Proof.
  intros Sh (X1 & X2 & X3 & X4) Hst Hall. pose proof (top_frame t Sh Hst) as F.
  unfold explored, for_else. simpl.
  destruct (last_cases (path t)) as [Ep|(l & x & Ep)]; rewrite Ep in *.
  - simpl. repeat split; auto.
  - rewrite removelast_last.
    assert (Fx : last (stack t) [] = children p x).
    { destruct (l ++ [x]) as [|a l'] eqn:El; [now destruct l|].
      rewrite F, <- El. now rewrite last_last. }
    split; [|split; [exact X2|split]].
    + intros n Hn. destruct (X1 n Hn) as [H|H]; [|now right].
      apply in_app_or in H. destruct H as [H|[<-|[]]]; [now left|].
      right. intros c Hc. apply Hall. now rewrite Fx.
    + destruct l as [|a l']; [exact I | exact X3].
    + now apply descends_init in X4.
Qed.

(** One pass keeps [shaped] and [explored], and adds the node it visits, if
    any, in front of the visited nodes. *)
Lemma step_explores (t : Traversal) (ds : list Diagnostic) (t1 : Traversal) :
  invariant p hs t -> shaped p hs t -> explored p hs t -> stack t <> [] ->
  while_body tags p t = (ds, t1) ->
  invariant p hs t1 /\ shaped p hs t1 /\ explored p hs t1 /\
  exists new,
    visited t1 = new ++ visited t /\
    filter (fun d => negb (is_cycle d)) ds = flat_map (check_node tags p) (rev new).
Proof.
  intros Inv Sh Ex Hst W.
  assert (Inv1 : invariant p hs t1).
  { pose proof (while_body_spec tags p hs t Inv Hst) as (B & _). now rewrite W in B. }
  split; [exact Inv1|].
  destruct (while_body_cases t ds t1 Inv Hst W) as [(-> & N & V & _)|(n & Hn & Hp & Hv & -> & N)].
  - split; [now apply for_else_shaped|]. split; [now apply for_else_explored|].
    exists []. split; [reflexivity | exact N].
  - split; [now apply visit_shaped|]. split; [now apply visit_explored|].
    exists [n]. split.
    + unfold visit. simpl. now rewrite (set_add_new Node_eq_dec n (visited t) Hv).
    + simpl. now rewrite app_nil_r.
Qed.

(** The whole loop: the nodes it visits, first one first, and the
    diagnostics other than cycles it yields. *)
Lemma steps_explore t ds t' :
  steps tags p t ds t' ->
  invariant p hs t -> shaped p hs t -> explored p hs t ->
  invariant p hs t' /\ shaped p hs t' /\ explored p hs t' /\
  exists new,
    visited t' = new ++ visited t /\
    filter (fun d => negb (is_cycle d)) ds = flat_map (check_node tags p) (rev new).
Proof.
  induction 1 as [t Hst|t ds t1 ds' t' Hst W Hrest IH]; intros Inv Sh Ex.
  - split; [exact Inv|]. split; [exact Sh|]. split; [exact Ex|].
    exists []. split; reflexivity.
  - destruct (step_explores t ds t1 Inv Sh Ex Hst W) as (I1 & S1 & E1 & new1 & V1 & D1).
    destruct (IH I1 S1 E1) as (I2 & S2 & E2 & new2 & V2 & D2).
    split; [exact I2|]. split; [exact S2|]. split; [exact E2|].
    exists (new2 ++ new1). split.
    + rewrite V2, V1. now rewrite app_assoc.
    + rewrite filter_app, D1, D2, rev_app_distr, flat_map_app. reflexivity.
Qed.

Lemma start_shaped : shaped p hs (start hs).
Proof. right. reflexivity. Qed.

Lemma start_explored : explored p hs (start hs).
Proof. unfold explored, start. simpl. repeat split; auto; intros n []. Qed.

(** At the end of the loop the visited nodes are the nodes under the heads. *)
Lemma end_visited (t : Traversal) :
  shaped p hs t -> explored p hs t -> stack t = [] ->
  forall n, In n (visited t) <-> descendant p hs n.
Proof.
  intros [(_ & Ep & Hh)|E] (X1 & X2 & _) Hst; [|congruence].
  intros n. split; [apply X2|].
  induction 1 as [n Hn|m n Hm IH Hc]; [now apply Hh|].
  destruct (X1 m IH) as [H|H]; [rewrite Ep in H; contradiction|].
  now apply H.
Qed.

(** A cycle diagnostic of one [for] loop names the path, and one of the
    nodes scanned is on the path. *)
Lemma for_loop_cycle_source (t : Traversal) : forall nodes ds t' ids,
  for_loop tags p t nodes = (ds, t') -> In (Detected_cycle ids) ds ->
  ids = map ID (path t) /\ exists node, In node nodes /\ In node (path_set t).
Proof.
  induction nodes as [|node rest IH]; intros ds t' ids H Hin; simpl in H.
  - injection H as <- <-. contradiction.
  - unfold for_body in H.
    destruct (set_mem Node_eq_dec node (path_set t)) eqn:Eps.
    + apply set_mem_true in Eps.
      destruct (for_loop tags p t rest) as [ds0 t0] eqn:F. injection H as <- <-.
      destruct Hin as [Hin|Hin].
      * injection Hin as <-. split; [reflexivity|]. exists node. split; [now left | exact Eps].
      * destruct (IH _ _ _ eq_refl Hin) as (E & n & Hn & Hp).
        split; [exact E|]. exists n. split; [now right | exact Hp].
    + destruct (set_mem Node_eq_dec node (visited t)) eqn:Ev; simpl in H.
      * destruct (for_loop tags p t rest) as [ds0 t0] eqn:F. injection H as <- <-.
        destruct (IH _ _ _ eq_refl Hin) as (E & n & Hn & Hp).
        split; [exact E|]. exists n. split; [now right | exact Hp].
      * injection H as <- <-.
        destruct (of_traversal_check_node tags p node) as [_ K].
        rewrite forallb_forall in K. specialize (K _ Hin). discriminate.
Qed.

(** Every cycle diagnostic of the loop names a path that starts at a head
    and goes down by child edges to a node with a child on the path. *)
Lemma steps_cycles t ds t' :
  steps tags p t ds t' ->
  invariant p hs t -> shaped p hs t -> explored p hs t ->
  forall ids, In (Detected_cycle ids) ds ->
  exists nodes first back,
    ids = map ID nodes /\
    hd_error nodes = Some first /\ In first hs /\
    descends p nodes /\
    In back nodes /\ In back (children p (last nodes first)).
Proof.
  induction 1 as [t Hst|t ds t1 ds' t' Hst W Hrest IH]; intros Inv Sh Ex ids Hin;
    [contradiction|].
  apply in_app_or in Hin. destruct Hin as [Hin|Hin].
  - unfold while_body in W.
    destruct (for_loop_cycle_source t _ _ _ ids W Hin) as (-> & back & Hb & Hp).
    destruct Inv as (_ & _ & Hs & _). apply Hs in Hp.
    pose proof (top_frame t Sh Hst) as F.
    destruct Ex as (_ & _ & X3 & X4).
    destruct (path t) as [|a l] eqn:Ep; [contradiction|].
    exists (a :: l), a, back. split; [reflexivity|]. split; [reflexivity|].
    split; [exact X3|]. split; [exact X4|]. split; [exact Hp|].
    rewrite F in Hb.
    destruct (last_cases (a :: l)) as [C|(l0 & x & C)]; [discriminate|].
    rewrite C in *. now rewrite last_last in *.
  - destruct (step_explores t ds t1 Inv Sh Ex Hst W) as (I1 & S1 & E1 & _).
    now apply (IH I1 S1 E1).
Qed.

(** While no cycle diagnostic is yielded, no node of a cyclic set is done
    with. *)
Lemma steps_unfinished (cyc : list Node) t ds t' :
  cyclic p cyc ->
  steps tags p t ds t' ->
  invariant p hs t -> shaped p hs t -> explored p hs t ->
  unfinished cyc t ->
  (forall d, In d ds -> is_cycle d = false) ->
  unfinished cyc t'.
Proof.
  intros [_ Hcyc]. induction 1 as [t Hst|t ds t1 ds' t' Hst W Hrest IH];
    intros Inv Sh Ex U Hno; [exact U|].
  destruct (step_explores t ds t1 Inv Sh Ex Hst W) as (I1 & S1 & E1 & _).
  apply (IH I1 S1 E1); [|intros d Hd; apply Hno, in_or_app; now right].
  assert (Hno1 : forall d, In d ds -> is_cycle d = false)
    by (intros d Hd; apply Hno, in_or_app; now left).
  pose proof (top_frame t Sh Hst) as F.
  destruct (while_body_cases t ds t1 Inv Hst W) as [(-> & _ & V & Cy)|(n & Hn & Hp & Hv & -> & _)].
  - intros c Hc Hvis. unfold for_else in *. simpl in *.
    pose proof (U c Hc Hvis) as Uc.
    destruct (last_cases (path t)) as [Ep|(l & x & Ep)]; rewrite Ep in *; [contradiction|].
    rewrite removelast_last. apply in_app_or in Uc. destruct Uc as [Uc|[<-|[]]]; [exact Uc|].
    exfalso. destruct (Hcyc x Hc) as (c' & Hc' & Hchild).
    assert (Fx : last (stack t) [] = children p x).
    { destruct (l ++ [x]) as [|a l'] eqn:El; [now destruct l|].
      rewrite F, <- El. now rewrite last_last. }
    rewrite <- Fx in Hchild.
    pose proof (U c' Hc' (V c' Hchild)) as Hpath. rewrite Ep in Hpath.
    specialize (Cy c' Hchild Hpath). specialize (Hno1 _ Cy). discriminate.
  - intros c Hc Hvis. unfold visit in *. simpl in *.
    rewrite (set_add_new Node_eq_dec n (visited t) Hv) in Hvis.
    apply in_or_app. destruct Hvis as [<-|Hvis]; [right; now left | left; now apply U].
Qed.

End TraversalFacts.

Section ValidateMore.
Import validation.
Variable tags : Tags.
Variable p : Passage.

(** validate as the run of its three loops. *)
Lemma validate_run :
  exists trav t',
    validate tags p
      = Some (flat_map check_terminal (layer0_all p)
              ++ flat_map (check_head tags) (heads p) ++ trav) /\
    steps tags p (start (heads p)) trav t' /\
    forallb of_traversal trav = true.
Proof.
  destruct (validate_from_spec tags p (heads p)) as (trav & E & K & _).
  specialize (E _ (le_n _)). unfold validate. rewrite E.
  unfold validate_from in E.
  destruct (while_loop tags p _ (start (heads p))) as [trav'|] eqn:W; [|discriminate].
  injection E as E. apply app_inv_head in E. apply app_inv_head in E. subst trav'.
  destruct (while_loop_steps tags p _ _ _ W) as [t' S].
  exists trav, t'. auto.
Qed.

Lemma terminal_kinds (l : list Node) (d : Diagnostic) :
  In d (flat_map check_terminal l) ->
  exists n, d = Orphan_terminal n \/ exists es, d = Reentrant_terminal es n.
Proof.
  intros H. apply in_flat_map in H. destruct H as (n & _ & H).
  unfold check_terminal in H. destruct (incoming n) as [|e [|e' es]]; simpl in H.
  - destruct H as [<-|[]]. eauto.
  - contradiction.
  - destruct H as [<-|[]]. eauto.
Qed.

Lemma head_kinds (l : list Node) (d : Diagnostic) :
  In d (flat_map (check_head tags) l) <->
  exists h, In h l /\ d = Extra_root (ID h) /\
            ID h <> "1.1" /\ node_tag h <> NodeTags_Linkage tags.
Proof.
  rewrite in_flat_map. split.
  - intros (h & Hh & H). exists h. split; [exact Hh|]. unfold check_head in H.
    destruct (negb (String.eqb (ID h) "1.1")) eqn:E1; simpl in H; [|contradiction].
    destruct (negb (String.eqb (node_tag h) (NodeTags_Linkage tags))) eqn:E2;
      simpl in H; [|contradiction].
    destruct H as [<-|[]]. apply negb_true_iff in E1, E2.
    apply String.eqb_neq in E1, E2. auto.
  - intros (h & Hh & -> & N1 & N2). exists h. split; [exact Hh|]. unfold check_head.
    apply String.eqb_neq in N1, N2. rewrite N1, N2. simpl. now left.
Qed.

(** X14: validate yields the diagnostic Extra root (i) exactly when i is
    the ID of a head of layer 1 that is not 1.1 and whose tag is not the
    Linkage tag. *)
Theorem extra_root_diagnostics (i : NodeID) :
  exists ds,
    validate tags p = Some ds /\
    (In (Extra_root i) ds <->
     exists h, In h (heads p) /\ ID h = i /\
               i <> "1.1" /\ node_tag h <> NodeTags_Linkage tags).
Proof.
  destruct validate_run as (trav & t' & E & _ & K).
  eexists. split; [exact E|]. rewrite !in_app_iff, head_kinds. split.
  - intros [H|[(h & Hh & Hd & N1 & N2)|H]].
    + apply terminal_kinds in H. destruct H as (n & [H|[es H]]); discriminate.
    + injection Hd as ->. exists h. auto.
    + rewrite forallb_forall in K. specialize (K _ H). discriminate.
  - intros (h & Hh & <- & N1 & N2). right. left. exists h. auto.
Qed.

(** X15: a cycle diagnostic of validate names a real cycle: the IDs are
    those of a path that starts at a head and goes down by child edges, and
    the last node of the path has a child that is on the path. *)
Theorem cycle_diagnostic_names_cycle (ds : list Diagnostic) (ids : list NodeID) :
  validate tags p = Some ds ->
  In (Detected_cycle ids) ds ->
  exists nodes first back,
    ids = map ID nodes /\
    hd_error nodes = Some first /\ In first (heads p) /\
    descends p nodes /\
    In back nodes /\ In back (children p (last nodes first)).
Proof.
  intros Hv Hin. destruct validate_run as (trav & t' & E & S & K).
  rewrite E in Hv. injection Hv as <-.
  rewrite !in_app_iff in Hin. destruct Hin as [H|[H|H]].
  - apply terminal_kinds in H. destruct H as (n & [H|[es H]]); discriminate.
  - apply head_kinds in H. destruct H as (h & _ & H & _). discriminate.
  - apply (steps_cycles tags p (heads p) _ _ _ S
             (start_invariant p (heads p)) (start_shaped p (heads p))
             (start_explored p (heads p)) ids H).
Qed.

Lemma not_traversal_terminals (l : list Node) :
  filter (fun d => of_traversal d && negb (is_cycle d)) (flat_map check_terminal l) = [].
Proof.
  induction l as [|x l IH]; [reflexivity|].
  simpl. rewrite filter_app, IH, app_nil_r. unfold check_terminal.
  destruct (incoming x) as [|e [|e' es]]; reflexivity.
Qed.

Lemma not_traversal_heads (l : list Node) :
  filter (fun d => of_traversal d && negb (is_cycle d)) (flat_map (check_head tags) l) = [].
Proof.
  induction l as [|x l IH]; [reflexivity|].
  simpl. rewrite filter_app, IH, app_nil_r. unfold check_head.
  destruct (negb (String.eqb (ID x) "1.1")
            && negb (String.eqb (node_tag x) (NodeTags_Linkage tags)))%bool;
    reflexivity.
Qed.

(** The nodes validate checks, in the order of their first visit. *)
Lemma validate_checks :
  exists ds order,
    validate tags p = Some ds /\
    NoDup order /\
    (forall n, In n order <-> descendant p (heads p) n) /\
    filter (fun d => of_traversal d && negb (is_cycle d)) ds
      = flat_map (check_node tags p) order.
Proof.
  destruct validate_run as (trav & t' & E & S & K).
  destruct (steps_explore tags p (heads p) _ _ _ S
              (start_invariant p (heads p)) (start_shaped p (heads p))
              (start_explored p (heads p))) as (Inv & Sh & Ex & new & V & D).
  simpl in V. rewrite app_nil_r in V.
  eexists. exists (rev new). split; [exact E|].
  split; [apply NoDup_rev; rewrite <- V; apply Inv|].
  split.
  - intros n. rewrite <- in_rev, <- V.
    apply (end_visited p (heads p) t' Sh Ex (steps_end tags p _ _ _ S)).
  - rewrite !filter_app, <- D.
    rewrite not_traversal_terminals, not_traversal_heads.
    simpl. apply filter_ext_in.
    intros d Hd. rewrite forallb_forall in K. now rewrite (K d Hd).
Qed.

(** X16: validate checks every node under the heads (a head, or a child of
    a node under the heads) exactly once and no other node: the diagnostics
    of the traversal other than cycles are those of the bodies of the visits
    of these nodes, each node once, in the order of the first visits. *)
Theorem nodes_under_heads_checked_once :
  exists ds order,
    validate tags p = Some ds /\
    NoDup order /\
    (forall n, In n order <-> descendant p (heads p) n) /\
    filter (fun d => of_traversal d && negb (is_cycle d)) ds
      = flat_map (check_node tags p) order.
Proof. destruct validate_checks as (ds & order & H). exists ds, order. exact H. Qed.

(** X17: validate yields Multiple incoming non-remote with the edges es
    exactly when es are the incoming edges, neither remote nor linkage, of
    a node under the heads, and are more than one. *)
Theorem multiple_incoming_diagnostics (es : list Edge) :
  exists ds,
    validate tags p = Some ds /\
    (In (Multiple_incoming es) ds <->
     exists n, descendant p (heads p) n /\
               es = filter (primary tags) (incoming n) /\ 1 < length es).
Proof.
  destruct validate_checks as (ds & order & E & _ & O & F).
  exists ds. split; [exact E|].
  assert (In (Multiple_incoming es) ds <->
          In (Multiple_incoming es) (flat_map (check_node tags p) order)) as ->.
  { rewrite <- F, filter_In. simpl. tauto. }
  rewrite in_flat_map. split.
  - intros (n & Hn & H). exists n. split; [now apply O|].
    unfold check_node in H. apply in_app_or in H. destruct H as [H|H].
    + destruct (1 <? length (filter (primary tags) (incoming n))) eqn:L; [|contradiction].
      destruct H as [H|[]]. injection H as <-. apply Nat.ltb_lt in L. auto.
    + apply in_flat_map in H. destruct H as (e & _ & H). unfold check_edge in H.
      apply in_app_or in H.
      destruct H as [H|H]; destruct (xorb _ _); simpl in H;
        try contradiction; destruct H as [H|[]]; discriminate.
  - intros (n & Hn & -> & L). exists n. split; [now apply O|].
    unfold check_node. apply in_or_app. left.
    apply Nat.ltb_lt in L. rewrite L. now left.
Qed.

(** X18: when a set of nodes under the heads holds a cycle of child edges
    (every node of the set has a child in the set), validate yields a cycle
    diagnostic. *)
Theorem cycle_under_heads_is_detected (cyc : list Node) :
  cyclic p cyc ->
  (forall c, In c cyc -> descendant p (heads p) c) ->
  exists ds ids, validate tags p = Some ds /\ In (Detected_cycle ids) ds.
Proof.
  intros Hcyc Hdesc. destruct validate_run as (trav & t' & E & S & K).
  eexists. 
  destruct (existsb is_cycle trav) eqn:X.
  - apply existsb_exists in X. destruct X as (d & Hd & Hc).
    destruct d; try discriminate. exists path_IDs. split; [exact E|].
    apply in_or_app. right. apply in_or_app. now right.
  - exfalso.
    assert (Hno : forall d, In d trav -> is_cycle d = false).
    { intros d Hd. destruct (is_cycle d) eqn:C; [|reflexivity].
      assert (existsb is_cycle trav = true) by (apply existsb_exists; eauto). congruence. }
    destruct (steps_explore tags p (heads p) _ _ _ S
                (start_invariant p (heads p)) (start_shaped p (heads p))
                (start_explored p (heads p))) as (_ & Sh & Ex & _).
    assert (U : unfinished cyc t').
    { apply (steps_unfinished tags p (heads p) cyc _ _ _ Hcyc S
               (start_invariant p (heads p)) (start_shaped p (heads p))
               (start_explored p (heads p))); [|exact Hno].
      intros c _ []. }
    pose proof (steps_end tags p _ _ _ S) as Hend.
    destruct Hcyc as [Hne _]. destruct cyc as [|c cyc']; [congruence|].
    assert (Hv : In c (visited t')).
    { apply (end_visited p (heads p) t' Sh Ex Hend). apply Hdesc. now left. }
    specialize (U c (or_introl eq_refl) Hv).
    destruct Sh as [(_ & Ep & _)|Sh]; [|congruence].
    rewrite Ep in U. contradiction.
Qed.

End ValidateMore.

(** *** The traversal on the rooted cycle *)
Section TraversalExamples.
Import validation example.

Lemma cycle_diagnostic_names_cycle_witness :
  exists nodes first back,
    ["1.1"; "A"; "B"; "C"] = map ID nodes /\
    hd_error nodes = Some first /\ In first (heads rooted_cycle_passage) /\
    descends rooted_cycle_passage nodes /\
    In back nodes /\ In back (children rooted_cycle_passage (last nodes first)).
Proof.
  apply (cycle_diagnostic_names_cycle ucca_tags rooted_cycle_passage
           [Multiple_incoming [mkEdge "1.1" "A" "H" false; mkEdge "C" "A" "P" false];
            Detected_cycle ["1.1"; "A"; "B"; "C"]]
           ["1.1"; "A"; "B"; "C"]).
  - reflexivity.
  - right. left. reflexivity.
Defined.

Lemma rooted_cycle_descendants :
  descendant rooted_cycle_passage (heads rooted_cycle_passage)
             (endpoint rooted_cycle_passage "A") /\
  descendant rooted_cycle_passage (heads rooted_cycle_passage)
             (endpoint rooted_cycle_passage "B") /\
  descendant rooted_cycle_passage (heads rooted_cycle_passage)
             (endpoint rooted_cycle_passage "C").
Proof.
  assert (R : descendant rooted_cycle_passage (heads rooted_cycle_passage)
                (endpoint rooted_cycle_passage "1.1")).
  { apply descendant_head. left. reflexivity. }
  assert (A : descendant rooted_cycle_passage (heads rooted_cycle_passage)
                (endpoint rooted_cycle_passage "A")).
  { apply (descendant_child _ _ _ _ R). left. reflexivity. }
  assert (B : descendant rooted_cycle_passage (heads rooted_cycle_passage)
                (endpoint rooted_cycle_passage "B")).
  { apply (descendant_child _ _ _ _ A). left. reflexivity. }
  split; [exact A|]. split; [exact B|].
  apply (descendant_child _ _ _ _ B). left. reflexivity.
Defined.

Lemma cycle_under_heads_is_detected_witness :
  exists ds ids,
    validate ucca_tags rooted_cycle_passage = Some ds /\ In (Detected_cycle ids) ds.
Proof.
  apply (cycle_under_heads_is_detected ucca_tags rooted_cycle_passage
           [endpoint rooted_cycle_passage "A"; endpoint rooted_cycle_passage "B";
            endpoint rooted_cycle_passage "C"]).
  - split; [discriminate|].
    intros c [<-|[<-|[<-|[]]]].
    + exists (endpoint rooted_cycle_passage "B"). split; [right; now left | now left].
    + exists (endpoint rooted_cycle_passage "C"). split; [right; right; now left | now left].
    + exists (endpoint rooted_cycle_passage "A"). split; [now left | now left].
  - intros c [<-|[<-|[<-|[]]]]; apply rooted_cycle_descendants.
Defined.

End TraversalExamples.

(** ** Strings: the messages and the printing methods *)
Section StringFacts.

Lemma string_append_assoc (a b c : string) : ((a ++ b) ++ c = a ++ (b ++ c))%string.
Proof. induction a as [|x a IH]; simpl; [reflexivity | now rewrite IH]. Qed.

Lemma string_append_nil_r (a : string) : (a ++ "" = a)%string.
Proof. induction a as [|x a IH]; simpl; [reflexivity | now rewrite IH]. Qed.

Lemma holds_refl (s : string) : holds s s.
Proof. exists ""%string, ""%string. simpl. now rewrite string_append_nil_r. Qed.

Lemma holds_after (a s part : string) : holds s part -> holds (a ++ s)%string part.
Proof.
  intros (x & y & ->). exists (a ++ x)%string, y. now rewrite string_append_assoc.
Qed.

Lemma holds_before (s b part : string) : holds s part -> holds (s ++ b)%string part.
Proof.
  intros (x & y & ->). exists x, (y ++ b)%string. now rewrite !string_append_assoc.
Qed.

(** [sep.join(l)] holds every string of [l]. *)
Lemma concat_holds (sep : string) (l : list string) (x : string) :
  In x l -> holds (String.concat sep l) x.
Proof.
  induction l as [|a l IH]; intros H; [contradiction|].
  destruct l as [|b l'].
  - destruct H as [->|[]]. simpl. apply holds_refl.
  - change (String.concat sep (a :: b :: l'))
      with (a ++ sep ++ String.concat sep (b :: l'))%string.
    destruct H as [->|H].
    + apply holds_before, holds_refl.
    + apply holds_after, holds_after, IH, H.
Qed.

End StringFacts.

Section MessageFacts.
Import validation.
Variable str_node : Node -> string.
Variable str_edge : Edge -> string.

(** X19: join loses no edge, and the messages built with it name every
    edge they are about: the string of each edge of the list is part of
    join(list), of the Reentrant terminal message and of the Multiple
    incoming message; the cycle message holds the ID of every node of the
    path. *)
Theorem messages_name_their_subjects (es : list Edge) (e : Edge) (node : Node)
    (ids : list NodeID) (i : NodeID) :
  In e es -> In i ids ->
  holds (join str_edge es) (str_edge e) /\
  holds (message str_node str_edge (Reentrant_terminal es node)) (str_edge e) /\
  holds (message str_node str_edge (Multiple_incoming es)) (str_edge e) /\
  holds (message str_node str_edge (Detected_cycle ids)) i.
Proof.
  intros He Hi.
  assert (J : holds (join str_edge es) (str_edge e)).
  { unfold join. apply concat_holds. now apply in_map. }
  split; [exact J|]. split; [|split].
  - cbv beta iota delta [message]. apply holds_after, holds_before, J.
  - cbv beta iota delta [message]. apply holds_after, holds_before, J.
  - cbv beta iota delta [message]. apply holds_after, holds_before. now apply concat_holds.
Qed.

End MessageFacts.

Section PrintingFacts.
Import oracle oracle_printing.
Variable node_order : list NodeID -> list NodeID.
Variable set_order : list Edge -> list Edge.
Variable str_edge : Edge -> string.
Hypothesis node_order_permutation : forall l, Permutation (node_order l) l.
Hypothesis set_order_permutation : forall l, Permutation (set_order l) l.

(** X20: str(sep) shows the work that is left: it holds the ID of every
    node of nodes_left and the string of every edge of edges_left.  __str__
    does not: it is the one-character string of a space whatever the oracle
    holds, and so never what str gives. *)
Theorem str_shows_what_is_left (o : Oracle) (sep : string) :
  (forall i, In i (nodes_left o) -> holds (str node_order set_order str_edge o sep) i) /\
  (forall e, In e (edges_left o) ->
     holds (str node_order set_order str_edge o sep) (str_edge e)) /\
  __str__ o <> str node_order set_order str_edge o sep /\
  String.length (__str__ o) = 1.
Proof.
  unfold str. split; [|split; [|split]].
  - intros i Hi. apply holds_after, holds_before, concat_holds.
    eapply Permutation_in; [apply Permutation_sym, node_order_permutation | exact Hi].
  - intros e He. do 5 apply holds_after. apply holds_before, concat_holds, in_map.
    eapply Permutation_in; [apply Permutation_sym, set_order_permutation | exact He].
  - simpl. discriminate.
  - reflexivity.
Qed.

End PrintingFacts.

Section PrintingExamples.
Import oracle oracle_printing validation example.

Lemma messages_name_their_subjects_witness :
  holds (message ID edge_child
           (Reentrant_terminal [mkEdge "1.2" "0.3" "T" false; mkEdge "1.3" "0.3" "T" false]
                               reentrant))
        (edge_child (mkEdge "1.3" "0.3" "T" false)).
Proof.
  exact (proj1 (proj2 (messages_name_their_subjects ID edge_child
           [mkEdge "1.2" "0.3" "T" false; mkEdge "1.3" "0.3" "T" false]
           (mkEdge "1.3" "0.3" "T" false) reentrant ["1.1"] "1.1"
           (or_intror (or_introl eq_refl)) (or_introl eq_refl)))).
Defined.

Lemma node_list_order_permutation : forall l : list NodeID, Permutation l l.
Proof. intros l. apply Permutation_refl. Defined.

Lemma str_shows_what_is_left_witness :
  holds (str (fun l => l) in_list_order edge_tag implicit_oracle " ") "1.3".
Proof.
  exact (proj1 (str_shows_what_is_left (fun l => l) in_list_order edge_tag
                  node_list_order_permutation in_list_order_permutation
                  implicit_oracle " ") "1.3" (or_introl eq_refl)).
Defined.

End PrintingExamples.
